(** * Mindminer: content-based recommendation core and its evaluation metrics

    A shallow embedding of [src/training/recommender.py] (the ranker behind
    [recommend]) and of [src/evaluation/metrics.py] (relevance judgement and
    the rank-quality, coverage and diversity metrics), together with the
    properties that the design document states about them.

    Conventions of the embedding.
    - Python [float] values that are only compared, added, subtracted and
      divided are exact rationals ([Q]); results are compared with [==].
      The functions that call [np.log2] ([dcg_at_k], [ndcg_at_k]) are
      over the reals ([R]).
    - Python [int] is [Z]; positions produced by [enumerate] and [range]
      are [nat].
    - Python [str] is [string], read as a sequence of code points below 256.
    - A Python [set] is a [gset].
    - A computation that can raise returns [option]: [None] is a raised
      exception. *)

From Stdlib Require Import QArith Reals Lra Lqa Lia Ascii String.
From Stdlib Require Import Sorting.Sorted Sorting.Permutation.
From stdpp Require Import base option list gmap sets strings sorting.

Local Open Scope Z_scope.

(** * Part I: the embedding *)

(** ** Python primitives *)

Module Py.

(** [enumerate(l, start)]. *)
Fixpoint enumerate_from {A} (start : nat) (l : list A) : list (nat * A) :=
  match l with
  | [] => []
  | x :: l' => (start, x) :: enumerate_from (S start) l'
  end.

Definition enumerate {A} (l : list A) : list (nat * A) := enumerate_from 0 l.

(** [range(start, stop)] and [range(stop)] for natural bounds. *)
Definition range2 (start stop : nat) : list nat := seq start (stop - start).
Definition range (stop : nat) : list nat := range2 0 stop.

(** A slice bound [i] of a sequence of length [len], clipped as CPython's
    [PySlice_AdjustIndices] does for step 1: a negative bound counts from
    the end, and the result is clipped into [0..len]. *)
Definition clip (len : nat) (i : Z) : nat :=
  if i <? 0 then Z.to_nat (Z.max (i + Z.of_nat len) 0)
  else Nat.min (Z.to_nat i) len.

(** [l[start:stop]]. *)
Definition slice {A} (l : list A) (start stop : Z) : list A :=
  let a := clip (length l) start in
  let b := clip (length l) stop in
  take (b - a) (drop a l).

(** [l[:stop]]. *)
Definition prefix {A} (l : list A) (stop : Z) : list A :=
  take (clip (length l) stop) l.

(** [k or default] for [k : Optional[int]]: [None] and [0] are falsy. *)
Definition or_default (k : option Z) (default : Z) : Z :=
  match k with
  | Some z => if z =? 0 then default else z
  | None => default
  end.

(** [for x in xs: body] over a state [S], where the body may raise. *)
Fixpoint for_each {S X} (xs : list X) (body : X → S → option S) (s : S)
    : option S :=
  match xs with
  | [] => Some s
  | x :: xs' => s' ← body x s; for_each xs' body s'
  end.

(** Dynamically typed values, as far as the tag columns hold them: a
    string, or a missing value ([None], a NaN float) or another scalar. *)
Inductive value :=
  | VNone
  | VStr (s : string)
  | VInt (z : Z)
  | VFloat (x : Q)
  | VNaN.

Definition isinstance_str (v : value) : bool :=
  match v with VStr _ => true | _ => false end.

(** Calling a [str] method on a value that is not a [str] raises
    [AttributeError]. *)
Definition as_str (v : value) : option string :=
  match v with VStr s => Some s | _ => None end.

(** [str.isspace] of one character (code points below 256): the ASCII
    white space 9-13 and 32, the separators 28-31, NEL and NBSP. *)
Definition isspace (c : ascii) : bool :=
  let n := nat_of_ascii c in
  ((9 <=? n) && (n <=? 13) || (28 <=? n) && (n <=? 32)
   || (n =? 133) || (n =? 160))%nat.

(** [str.lower] of one character (code points below 256): A-Z and the
    Latin-1 capitals. *)
Definition lower_char (c : ascii) : ascii :=
  let n := nat_of_ascii c in
  if ((65 <=? n) && (n <=? 90)
      || (192 <=? n) && (n <=? 222) && negb (n =? 215))%nat
  then ascii_of_nat (n + 32) else c.

Fixpoint lower (s : string) : string :=
  match s with
  | EmptyString => EmptyString
  | String c s' => String (lower_char c) (lower s')
  end.

Fixpoint lstrip (s : string) : string :=
  match s with
  | String c s' => if isspace c then lstrip s' else s
  | EmptyString => EmptyString
  end.

(** Drops trailing white space: a character is kept when it is not white
    space or something is kept after it. *)
Fixpoint rstrip (s : string) : string :=
  match s with
  | EmptyString => EmptyString
  | String c s' =>
      match rstrip s' with
      | EmptyString => if isspace c then EmptyString else String c EmptyString
      | r => String c r
      end
  end.

(** [s.strip()]. *)
Definition strip (s : string) : string := rstrip (lstrip s).

(** [s.split()]: the maximal runs of characters that are not white space.
    [cur] is the run being read, in reverse. *)
Fixpoint split_aux (cur : list ascii) (s : string) : list string :=
  let flush := match cur with
               | [] => []
               | _ => [string_of_list_ascii (rev cur)]
               end in
  match s with
  | EmptyString => flush
  | String c s' =>
      if isspace c then flush ++ split_aux [] s'
      else split_aux (c :: cur) s'
  end.

Definition split (s : string) : list string := split_aux [] s.

(** Truth value of a [str]: non-empty. *)
Definition str_bool (s : string) : bool :=
  match s with EmptyString => false | _ => true end.

End Py.

(** ** Stable descending sort: [sorted(l, key=key, reverse=True)]

    Python's [sorted] is stable, also under [reverse=True]: the result is
    ordered by descending key and elements of equal key keep their input
    order.  The embedding is the stable insertion sort, which has that
    result; [leb] is [<=] on the keys. *)

Section SortedReverse.
Context {A K : Type} (leb : K → K → bool) (key : A → K).

(** [x] stands left of every element of [l] in the input, so it goes in
    front of the first element whose key is not larger than its own. *)
Fixpoint insert_desc (x : A) (l : list A) : list A :=
  match l with
  | [] => [x]
  | y :: l' =>
      if leb (key y) (key x) then x :: y :: l'
      else y :: insert_desc x l'
  end.

Definition sorted_reverse (l : list A) : list A := foldr insert_desc [] l.
End SortedReverse.

(** ** [src/training/recommender.py] *)

Module Recommender.

(** The state that [_load_model] caches in the module globals: the [title]
    column of [_new_df] (default [RangeIndex], so labels are positions) and
    the matrix [_similarity]. *)
Record model := Model {
  new_df_title : list string;
  similarity : list (list Q)
}.

(** [_new_df[_new_df["title"] == movie].index]: the positions of the rows
    whose title is [movie], in row order. *)
Definition match_index (m : model) (movie : string) : list nat :=
  fst <$> filter (λ p, snd p = movie) (Py.enumerate (new_df_title m)).

(** [f"Movie not found: '{movie}'"]. *)
Definition not_found_message (movie : string) : string :=
  "Movie not found: '" +:+ movie +:+ "'".

(** The local [ranked]:
    [sorted(enumerate(distances), key=lambda x: x[1], reverse=True)[1 : top_k + 1]]. *)
Definition ranked (distances : list Q) (top_k : Z) : list (nat * Q) :=
  Py.slice (sorted_reverse Qle_bool snd (Py.enumerate distances)) 1 (top_k + 1).

(** [recommend(movie, top_k)].  Indexing [_similarity] or [_new_df.iloc]
    out of range raises [IndexError] ([None]). *)
Definition recommend (m : model) (movie : string) (top_k : Z)
    : option (list string) :=
  match match_index m movie with
  | [] => Some [not_found_message movie]
  | movie_index :: _ =>
      distances ← similarity m !! movie_index;
      mapM (λ p, new_df_title m !! fst p) (ranked distances top_k)
  end.

(** The item indices of [ranked], which the titles are read from. *)
Definition ranked_indices (distances : list Q) (top_k : Z) : list nat :=
  fst <$> ranked distances top_k.

End Recommender.

(** ** [src/evaluation/metrics.py] *)

Module Metrics.

(** [float(n)] of an [int], and [len(s)] of a set as a number. *)
Definition Qz (z : Z) : Q := inject_Z z.
Definition Qlen (s : gset string) : Q := inject_Z (Z.of_nat (size s)).
Definition Qcard (s : gset Z) : Q := inject_Z (Z.of_nat (size s)).

(** [_tag_set(tags)].  [or] evaluates [tags.strip()] only for a [str]. *)
Definition _tag_set (tags : Py.value) : option (gset string) :=
  blank ← (if negb (Py.isinstance_str tags) then Some true
           else s ← Py.as_str tags; Some (negb (Py.str_bool (Py.strip s))));
  if (blank : bool) then Some ∅
  else
    s ← Py.as_str tags;
    Some (list_to_set
            ((λ t, Py.lower (Py.strip t)) <$>
             filter (λ t, Py.str_bool (Py.strip t) = true) (Py.split s))).

(** [relevance_by_tag_overlap(query_tags, candidate_tags, min_common)]. *)
Definition default_min_common : Z := 3.

Definition relevance_by_tag_overlap
    (query_tags candidate_tags : Py.value) (min_common : Z) : option bool :=
  a ← _tag_set query_tags;
  b ← _tag_set candidate_tags;
  Some (min_common <=? Z.of_nat (size (a ∩ b))).

(** [relevance_score_tag_overlap(query_tags, candidate_tags)]. *)
Definition relevance_score_tag_overlap
    (query_tags candidate_tags : Py.value) : option Q :=
  a ← _tag_set query_tags;
  b ← _tag_set candidate_tags;
  if bool_decide (a = ∅) || bool_decide (b = ∅) then Some 0%Q
  else Some (Qlen (a ∩ b) / Qlen (a ∪ b))%Q.

(** [precision_at_k(recommended, relevant, k)]. *)
Definition precision_at_k (recommended relevant : list Z) (k : option Z) : Q :=
  let k := Py.or_default k (Z.of_nat (length recommended)) in
  let rec_k : gset Z := list_to_set (Py.prefix recommended k) in
  let rel : gset Z := list_to_set relevant in
  if k =? 0 then 0%Q
  else (Qcard (rec_k ∩ rel) / Qz k)%Q.

(** [recall_at_k(recommended, relevant, k)]. *)
Definition recall_at_k (recommended relevant : list Z) (k : option Z) : Q :=
  let k := Py.or_default k (Z.of_nat (length recommended)) in
  let rec_k : gset Z := list_to_set (Py.prefix recommended k) in
  let rel : gset Z := list_to_set relevant in
  if bool_decide (rel = ∅) then 0%Q
  else (Qcard (rec_k ∩ rel) / Qcard rel)%Q.

(** [mean_reciprocal_rank(recommended, relevant)]: the loop over
    [enumerate(recommended, start=1)] returns at the first hit. *)
Fixpoint first_hit (rel : gset Z) (ranked : list (nat * Z)) : Q :=
  match ranked with
  | [] => 0%Q
  | (rank, item) :: rest =>
      if bool_decide (item ∈ rel) then (1 / Qz (Z.of_nat rank))%Q
      else first_hit rel rest
  end.

Definition mean_reciprocal_rank (recommended relevant : list Z) : Q :=
  first_hit (list_to_set relevant) (Py.enumerate_from 1 recommended).

(** [np.log2]. *)
Definition log2 (x : R) : R := (ln x / ln 2)%R.

(** [<=] on floats, as the comparison [sorted] and [if idcg <= 0] use. *)
Definition Rle_bool (x y : R) : bool := if Rle_dec x y then true else false.

(** [sum(xs)]: left to right from 0. *)
Definition sumR (xs : list R) : R := foldl Rplus 0%R xs.
Definition sumQ (xs : list Q) : Q := foldl Qplus 0%Q xs.

(** [dcg_at_k(relevance_grades, k)]. *)
Definition dcg_at_k (relevance_grades : list R) (k : Z) : R :=
  let grades := Py.prefix relevance_grades k in
  match grades with
  | [] => 0%R
  | _ => sumR ((λ p, snd p / log2 (INR (fst p + 2)))%R <$> Py.enumerate grades)
  end.

(** [ndcg_at_k(recommended, relevance_fn, k)]. *)
Definition ndcg_at_k (recommended : list Z) (relevance_fn : Z → R)
    (k : option Z) : R :=
  let k := Py.or_default k (Z.of_nat (length recommended)) in
  let rec_k := Py.prefix recommended k in
  let grades := relevance_fn <$> rec_k in
  let idcg_grades :=
    Py.prefix
      (sorted_reverse Rle_bool id
         ((λ i, relevance_fn (Z.of_nat i)) <$> Py.range (length recommended)))
      k in
  let dcg := dcg_at_k grades k in
  let idcg := dcg_at_k idcg_grades k in
  if Rle_bool idcg 0 then 0%R else (dcg / idcg)%R.

(** [catalog_coverage(all_recommendations, catalog_size)]. *)
Definition covered_items (all_recommendations : list (list Z)) : gset Z :=
  foldl (λ covered rec_list, covered ∪ list_to_set rec_list) ∅
        all_recommendations.

Definition catalog_coverage (all_recommendations : list (list Z))
    (catalog_size : Z) : Q :=
  if catalog_size =? 0 then 0%Q
  else (Qcard (covered_items all_recommendations) / Qz catalog_size)%Q.

(** An index into an axis of length [len] of a numpy array: negative
    indices count from the end, anything outside raises [IndexError]. *)
Definition np_axis (len : nat) (i : Z) : option nat :=
  if (0 <=? i) && (i <? Z.of_nat len) then Some (Z.to_nat i)
  else if (- Z.of_nat len <=? i) && (i <? 0) then Some (Z.to_nat (i + Z.of_nat len))
  else None.

(** [similarity_matrix[ii, jj]] of a two-dimensional array, held as its
    list of rows. *)
Definition np_get (similarity_matrix : list (list Q)) (ii jj : Z) : option Q :=
  r ← np_axis (length similarity_matrix) ii;
  row ← similarity_matrix !! r;
  c ← np_axis (length row) jj;
  row !! c.

(** The state of the two loops of [intra_list_diversity]. *)
Record acc := Acc { total : Q; count : nat }.

Definition pair_step (similarity_matrix : list (list Q))
    (recommended_indices : list Z) (i j : nat) (s : acc) : option acc :=
  ii ← recommended_indices !! i;
  jj ← recommended_indices !! j;
  sim ← np_get similarity_matrix ii jj;
  Some (Acc (total s + (1 - sim))%Q (count s + 1)).

(** [intra_list_diversity(similarity_matrix, recommended_indices)]. *)
Definition intra_list_diversity (similarity_matrix : list (list Q))
    (recommended_indices : list Z) : option Q :=
  if (length recommended_indices <? 2)%nat then Some 0%Q
  else
    let n := length recommended_indices in
    s ← Py.for_each (Py.range n)
          (λ i, Py.for_each (Py.range2 (i + 1) n)
                  (pair_step similarity_matrix recommended_indices i))
          (Acc 0%Q 0);
    Some (if (count s =? 0)%nat then 0%Q
          else (total s / Qz (Z.of_nat (count s)))%Q).

(** [np.mean] of a non-empty list. *)
Definition np_mean (xs : list Q) : Q :=
  (sumQ xs / Qz (Z.of_nat (length xs)))%Q.

(** [average_diversity(similarity_matrix, all_recommendations)]. *)
Definition average_diversity (similarity_matrix : list (list Q))
    (all_recommendations : list (list Z)) : option Q :=
  match all_recommendations with
  | [] => Some 0%Q
  | _ =>
      divs ← mapM (intra_list_diversity similarity_matrix)
                  (filter (λ rec, (2 <= length rec)%nat) all_recommendations);
      Some (match divs with [] => 0%Q | _ => np_mean divs end)
  end.

End Metrics.

(** ** Notions that the properties of the ranker are stated with *)

Module RankerOrder.
Import Py Recommender.

(** [sorted(enumerate(distances), key=..., reverse=True)], the list that
    [ranked] slices. *)
Definition by_similarity (distances : list Q) : list (nat * Q) :=
  sorted_reverse Qle_bool snd (enumerate distances).

(** The order that the sort of an enumeration realises: descending
    similarity, and ascending index among equal similarities. *)
Definition before (a b : nat * Q) : Prop :=
  (snd b < snd a)%Q ∨ (snd a == snd b)%Q ∧ (fst a < fst b)%nat.

(** The query item heads the sorted order exactly when its similarity is
    not below any other and is strictly above those of the items before it;
    this is the situation that the slice from position 1 presumes. *)
Definition dominant (distances : list Q) (q : nat) (vq : Q) : Prop :=
  distances !! q = Some vq ∧
  Forall (λ v, (v <= vq)%Q) distances ∧
  Forall (λ v, (v < vq)%Q) (take q distances).

(** Two items with the same tags: every similarity is 1. *)
Definition twin_catalog : model :=
  Model ["A"; "B"]%string [[1; 1]; [1; 1]]%Q.

(** Two items without any vocabulary token: every similarity is 0. *)
Definition blank_catalog : model :=
  Model ["A"; "B"]%string [[0; 0]; [0; 0]]%Q.

(** Three items without any vocabulary token. *)
Definition blank_trio : model :=
  Model ["A"; "B"; "C"]%string [[0; 0; 0]; [0; 0; 0]; [0; 0; 0]]%Q.

(** Three items with the same tags. *)
Definition triplet_catalog : model :=
  Model ["A"; "B"; "C"]%string [[1; 1; 1]; [1; 1; 1]; [1; 1; 1]]%Q.

End RankerOrder.

(** ** Notions that the properties of the relevance judge are stated with *)

Module TagNotions.
Import Py.

(** A string without any character that is not white space (the empty
    string included). *)
Fixpoint blank (s : string) : bool :=
  match s with
  | EmptyString => true
  | String c s' => isspace c && blank s'
  end.

(** A value that [_tag_set] reads no tag from: anything that is not a
    string, and a blank string. *)
Definition tagless (v : value) : bool :=
  match v with
  | VStr s => blank s
  | _ => true
  end.

End TagNotions.

(** ** Notions that the properties of the diversity measures are stated with *)

Module DiversityNotions.
Import Metrics.

(** A similarity value: between 0 and 1. *)
Definition unit_interval (x : Q) : Prop := (0 <= x)%Q ∧ (x <= 1)%Q.

(** Every entry of the matrix is a similarity value. *)
Definition entries_in_unit (similarity_matrix : list (list Q)) : Prop :=
  Forall (Forall unit_interval) similarity_matrix.

(** An N×N array. *)
Definition square (similarity_matrix : list (list Q)) (N : nat) : Prop :=
  length similarity_matrix = N ∧
  Forall (λ row, length row = N) similarity_matrix.

(** Indices that numpy accepts on an axis of length N: [-N ≤ i < N]. *)
Definition valid_indices (N : nat) (indices : list Z) : Prop :=
  Forall (λ i, - Z.of_nat N ≤ i < Z.of_nat N) indices.

(** The loop invariant: every pair adds between 0 and 1 to [total] and 1
    to [count]. *)
Definition bounded (s : acc) : Prop :=
  (0 <= total s)%Q ∧ (total s <= Qz (Z.of_nat (count s)))%Q.

End DiversityNotions.

(** ** The design document's NDCG, for comparison with [ndcg_at_k] *)

Module DesignDoc.
Import Py Metrics.

(** Σ_{i=0}^{n-1} f(i). *)
Fixpoint sigma (n : nat) (f : nat → R) : R :=
  match n with
  | O => 0%R
  | S n' => (sigma n' f + f n')%R
  end.

(** [dcgAtK(grades, k)]: Σ_{i=0}^{k-1} grade_i / log2(i+2), over the
    grades there are; 0 for an empty grade sequence. *)
Definition dcgAtK (grades : list R) (k : nat) : R :=
  sigma (Nat.min k (length grades))
        (λ i, nth i grades 0 / log2 (INR (i + 2)))%R.

(** A grade sequence in descending order. *)
Definition descending (grades : list R) : Prop :=
  StronglySorted (λ a b, (b <= a)%R) grades.

(** [ndcgAtK(recommended, relevanceFn, k)] as the design document words
    it: the ideal ordering sorts the relevance grades of all
    [catalog_size] catalog items descending and takes the first k. *)
Definition ndcgAtK (catalog_size : nat) (recommended : list Z)
    (relevanceFn : Z → R) (k : nat) : R :=
  let grades := relevanceFn <$> take k recommended in
  let ideal :=
    take k (sorted_reverse Rle_bool id
              ((λ i, relevanceFn (Z.of_nat i)) <$> seq 0 catalog_size)) in
  let idcg := dcgAtK ideal k in
  if Rle_bool idcg 0 then 0%R else (dcgAtK grades k / idcg)%R.

(** A relevance function with one relevant item, item 1. *)
Definition only_item_1 (i : Z) : R := if i =? 1 then 1%R else 0%R.

(** A relevance function with item 1 fully and item 0 half relevant. *)
Definition item_1_over_item_0 (i : Z) : R :=
  if i =? 1 then 1%R else if i =? 0 then (1 / 2)%R else 0%R.

End DesignDoc.

(** ** [src/training/recommender.py]: the tag normaliser of [_load_model] *)

Module Loader.
Import Py.

(** [" ".join(ts)]. *)
Fixpoint join_space (ts : list string) : string :=
  match ts with
  | [] => EmptyString
  | [t] => t
  | t :: ts' => t +:+ " " +:+ join_space ts'
  end.

(** Truth value of a value: [None], the empty string and a zero number are
    falsy; NaN, as every other float that is not zero, is truthy. *)
Definition truthy (v : value) : bool :=
  match v with
  | VNone => false
  | VStr s => str_bool s
  | VInt z => negb (z =? 0)
  | VFloat x => negb (Qeq_bool x 0)
  | VNaN => true
  end.

(** [text or ""]. *)
Definition or_empty (text : value) : value :=
  if truthy text then text else VStr EmptyString.

(** The local function [stem] of [_load_model]:
    [" ".join(ps.stem(w) for w in (text or "").split())], for the stemmer
    [ps.stem] in use. *)
Definition stem (ps_stem : string → string) (text : value) : option string :=
  s ← as_str (or_empty text);
  Some (join_space (ps_stem <$> split s)).

End Loader.

(** ** Further notions that properties are stated with *)

Module Notions.
Import Py Recommender Metrics.

(** A model as [_load_model] builds it: an N×N matrix for N titles. *)
Definition well_formed (m : model) : Prop :=
  length (similarity m) = length (new_df_title m) ∧
  Forall (λ row, length row = length (new_df_title m)) (similarity m).

(** A ranked list in descending order of similarity. *)
Definition descending_similarity (l : list (nat * Q)) : Prop :=
  StronglySorted (λ a b, (snd b <= snd a)%Q) l.

(** A string without any white space character. *)
Fixpoint whitespace_free (s : string) : bool :=
  match s with
  | EmptyString => true
  | String c s' => negb (isspace c) && whitespace_free s'
  end.

(** A word: not empty and without white space, as the tokens of [split]
    are. *)
Definition word (s : string) : bool := str_bool s && whitespace_free s.

(** All grades are non-negative. *)
Definition nonneg_grades (relevance_fn : Z → R) : Prop :=
  ∀ i, (0 <= relevance_fn i)%R.

End Notions.

(** * Part II: properties *)



(** ** Slices and enumerations *)

Module PyFacts.
Import Py.

Lemma clip_le (len : nat) (i : Z) : (clip len i ≤ len)%nat.
Proof. unfold clip. destruct (i <? 0) eqn:E; lia. Qed.

Lemma clip_nonneg (len : nat) (i : Z) :
  0 ≤ i → clip len i = Nat.min (Z.to_nat i) len.
Proof. intros H. unfold clip. destruct (Z.ltb_spec i 0); [lia | done]. Qed.


Lemma prefix_nonneg {A} (l : list A) (k : Z) :
  0 ≤ k → prefix l k = take (Z.to_nat k) l.
Proof.
  intros H. unfold prefix. rewrite clip_nonneg by done.
  destruct (Nat.min_spec (Z.to_nat k) (length l)) as [[_ ->] | [? ->]]; [done |].
  by rewrite !firstn_all2 by lia.
Qed.

Lemma prefix_idemp {A} (l : list A) (k : Z) :
  0 ≤ k → prefix (prefix l k) k = prefix l k.
Proof.
  intros H. rewrite !prefix_nonneg by done. by rewrite take_take, Nat.min_id.
Qed.

Lemma prefix_length {A} (l : list A) :
  prefix l (Z.of_nat (length l)) = l.
Proof. rewrite prefix_nonneg by lia. rewrite Nat2Z.id. apply firstn_all. Qed.

Lemma slice_length {A} (l : list A) (a b : Z) :
  length (slice l a b) = (clip (length l) b - clip (length l) a)%nat.
Proof.
  unfold slice. rewrite length_take, length_drop.
  pose proof (clip_le (length l) b). lia.
Qed.

Lemma slice_lookup {A} (l : list A) (a b : Z) (p : nat) (x : A) :
  slice l a b !! p = Some x ↔
  (clip (length l) a + p < clip (length l) b)%nat ∧
  l !! (clip (length l) a + p)%nat = Some x.
Proof.
  unfold slice. split.
  - intros H. destruct (decide (p < clip (length l) b - clip (length l) a)%nat).
    + rewrite lookup_take_lt, lookup_drop in H by done. split; [lia | done].
    + rewrite lookup_take_ge in H by lia. done.
  - intros [H1 H2]. rewrite lookup_take_lt by lia. by rewrite lookup_drop.
Qed.

Lemma enumerate_from_lookup {A} (l : list A) (s p : nat) :
  enumerate_from s l !! p = (λ x, ((s + p)%nat, x)) <$> l !! p.
Proof.
  revert s p. induction l as [|x l IH]; intros s [|p]; simpl; try done.
  - by rewrite Nat.add_0_r.
  - rewrite IH. by rewrite Nat.add_succ_r.
Qed.

Lemma enumerate_from_fst {A} (l : list A) (s : nat) :
  fst <$> enumerate_from s l = seq s (length l).
Proof. revert s. induction l as [|x l IH]; intros s; simpl; [done |]. by rewrite IH. Qed.

Lemma enumerate_from_snd {A} (l : list A) (s : nat) :
  snd <$> enumerate_from s l = l.
Proof. revert s. induction l as [|x l IH]; intros s; simpl; [done |]. by rewrite IH. Qed.

Lemma enumerate_from_length {A} (l : list A) (s : nat) :
  length (enumerate_from s l) = length l.
Proof. revert s. induction l as [|x l IH]; intros s; simpl; [done |]. by rewrite IH. Qed.

Lemma elem_of_enumerate_from {A} (l : list A) (s i : nat) (x : A) :
  (i, x) ∈ enumerate_from s l ↔ (s ≤ i)%nat ∧ l !! (i - s)%nat = Some x.
Proof.
  rewrite list_elem_of_lookup. split.
  - intros [p Hp]. rewrite enumerate_from_lookup in Hp.
    destruct (l !! p) as [y|] eqn:E; simplify_eq/=.
    split; [lia |]. by replace (s + p - s)%nat with p by lia.
  - intros [Hle Hl]. exists (i - s)%nat. rewrite enumerate_from_lookup, Hl. simpl.
    f_equal. f_equal. lia.
Qed.

End PyFacts.

(** ** The stable descending sort *)

Section SortedReverseFacts.
Context {A K : Type} (leb : K → K → bool) (key : A → K).

Lemma insert_desc_Permutation (x : A) (l : list A) :
  insert_desc leb key x l ≡ₚ x :: l.
Proof.
  induction l as [|y l IH]; simpl; [done |].
  destruct (leb (key y) (key x)); [done |].
  rewrite IH. apply Permutation_swap.
Qed.

Lemma sorted_reverse_Permutation (l : list A) :
  sorted_reverse leb key l ≡ₚ l.
Proof.
  induction l as [|x l IH]; simpl; [done |].
  by rewrite insert_desc_Permutation, IH.
Qed.

Lemma sorted_reverse_length (l : list A) :
  length (sorted_reverse leb key l) = length l.
Proof. by rewrite sorted_reverse_Permutation. Qed.

End SortedReverseFacts.

(** ** The ranker *)

Module RankerFacts.
Import Py PyFacts Recommender RankerOrder.


Lemma before_irrefl (a : nat * Q) : ¬ before a a.
Proof. intros [H | [_ H]]; [by apply Qlt_irrefl in H | lia]. Qed.

Lemma before_asym (a b : nat * Q) : before a b → ¬ before b a.
Proof.
  intros [H1 | [H1 H1']] [H2 | [H2 H2']].
  - apply (Qlt_irrefl (snd a)). by apply Qlt_trans with (snd b).
  - rewrite H2 in H1. by apply Qlt_irrefl in H1.
  - rewrite H1 in H2. by apply Qlt_irrefl in H2.
  - lia.
Qed.

Lemma StronglySorted_lookup {X} (R : relation X) (l : list X) (p q : nat) (a b : X) :
  StronglySorted R l → l !! p = Some a → l !! q = Some b → (p < q)%nat → R a b.
Proof.
  intros Hs. revert p q. induction Hs as [|x l Hs IH Hall]; intros p q Hp Hq Hlt.
  - done.
  - destruct q as [|q]; [lia |]. destruct p as [|p]; simplify_eq/=.
    + rewrite Forall_forall in Hall. apply Hall.
      by eapply list_elem_of_lookup_2.
    + eapply IH; [done.. | lia].
Qed.

Lemma StronglySorted_key_le (y : nat * Q) (l : list (nat * Q)) :
  StronglySorted before (y :: l) → Forall (λ z, (snd z <= snd y)%Q) l.
Proof.
  intros Hs. apply StronglySorted_inv in Hs as [_ Hall].
  eapply Forall_impl; [done |]. intros z [H | [H _]]; simpl in *.
  - by apply Qlt_le_weak.
  - rewrite H. apply Qle_refl.
Qed.

Lemma insert_desc_sorted (x : nat * Q) (l : list (nat * Q)) :
  StronglySorted before l →
  Forall (λ y, (fst x < fst y)%nat) l →
  StronglySorted before (insert_desc Qle_bool snd x l).
Proof.
  induction l as [|y l IH]; intros Hs Hidx; simpl.
  - repeat constructor.
  - destruct (Qle_bool (snd y) (snd x)) eqn:E.
    + apply Qle_bool_iff in E. constructor; [done |].
      pose proof (StronglySorted_key_le _ _ Hs) as Hle.
      assert (Forall (λ z, (snd z <= snd x)%Q) (y :: l)) as Hle'.
      { constructor; [done |]. eapply Forall_impl; [done |].
        intros z Hz; simpl in *. by apply Qle_trans with (snd y). }
      rewrite Forall_forall in Hle', Hidx. apply Forall_forall. intros z Hz.
      specialize (Hle' z Hz). specialize (Hidx z Hz). simpl in *.
      destruct (Qlt_le_dec (snd z) (snd x)) as [Hlt | Hge]; [by left |].
      right. split; [by apply Qle_antisym | done].
    + assert (snd x < snd y)%Q as Hlt.
      { apply Qnot_le_lt. intros H. apply Qle_bool_iff in H. congruence. }
      apply StronglySorted_inv in Hs as [Hs Hall].
      apply Forall_cons in Hidx as [_ Hidx].
      constructor; [by apply IH |].
      rewrite insert_desc_Permutation. constructor; [by left | done].
Qed.

Lemma sorted_enumerate_from (distances : list Q) (s : nat) :
  StronglySorted before (sorted_reverse Qle_bool snd (enumerate_from s distances)).
Proof.
  revert s. induction distances as [|v l IH]; intros s; simpl; [constructor |].
  apply insert_desc_sorted; [apply IH |].
  rewrite sorted_reverse_Permutation. apply Forall_forall. intros [i w] Hin.
  apply elem_of_enumerate_from in Hin. simpl. lia.
Qed.


Lemma by_similarity_sorted (distances : list Q) :
  StronglySorted before (by_similarity distances).
Proof. apply sorted_enumerate_from. Qed.

Lemma by_similarity_length (distances : list Q) :
  length (by_similarity distances) = length distances.
Proof.
  unfold by_similarity, enumerate.
  by rewrite sorted_reverse_length, enumerate_from_length.
Qed.

Lemma elem_of_by_similarity (distances : list Q) (i : nat) (v : Q) :
  (i, v) ∈ by_similarity distances ↔ distances !! i = Some v.
Proof.
  unfold by_similarity. rewrite sorted_reverse_Permutation.
  unfold enumerate. rewrite elem_of_enumerate_from.
  rewrite Nat.sub_0_r. intuition lia.
Qed.

Lemma by_similarity_indices (distances : list Q) :
  fst <$> by_similarity distances ≡ₚ seq 0 (length distances).
Proof.
  unfold by_similarity. rewrite sorted_reverse_Permutation.
  unfold enumerate. by rewrite enumerate_from_fst.
Qed.

Lemma ranked_lookup (distances : list Q) (top_k : Z) (p i : nat) :
  ranked_indices distances top_k !! p = Some i →
  ∃ v, distances !! i = Some v ∧
       by_similarity distances !! (clip (length distances) 1 + p)%nat = Some (i, v) ∧
       (clip (length distances) 1 + p < clip (length distances) (top_k + 1))%nat.
Proof.
  unfold ranked_indices, ranked. fold (by_similarity distances).
  rewrite list_lookup_fmap. intros H.
  destruct (slice _ _ _ !! p) as [[i' v]|] eqn:E; simplify_eq/=.
  apply slice_lookup in E as [Hlt E]. rewrite by_similarity_length in Hlt, E.
  exists v. split_and!; [| done..].
  apply elem_of_by_similarity. by eapply list_elem_of_lookup_2.
Qed.


Lemma by_similarity_head (distances : list Q) (q : nat) (vq : Q) :
  dominant distances q vq →
  ∃ rest, by_similarity distances = (q, vq) :: rest.
Proof.
  intros (Hq & Hle & Hlt).
  pose proof (by_similarity_sorted distances) as Hs.
  assert ((q, vq) ∈ by_similarity distances) as Hin
    by by apply elem_of_by_similarity.
  destruct (by_similarity distances) as [|[i v] rest] eqn:E; [by apply elem_of_nil in Hin |].
  assert (distances !! i = Some v) as Hi.
  { apply elem_of_by_similarity. rewrite E. by left. }
  apply elem_of_cons in Hin as [Heq | Hin]; [simplify_eq; by eexists |].
  exfalso. apply StronglySorted_inv in Hs as [_ Hall].
  rewrite Forall_forall in Hall. destruct (Hall _ Hin) as [H | [H Hiq]]; simpl in *.
  - rewrite Forall_forall in Hle.
    apply (Qlt_irrefl vq). apply Qlt_le_trans with v; [done |].
    apply Hle. by eapply list_elem_of_lookup_2.
  - rewrite Forall_forall in Hlt.
    assert (v < vq)%Q as Hv.
    { apply Hlt. apply list_elem_of_lookup. exists i. by rewrite lookup_take_lt. }
    rewrite H in Hv. by apply Qlt_irrefl in Hv.
Qed.


Lemma match_index_absent (m : model) (movie : string) :
  movie ∉ new_df_title m → match_index m movie = [].
Proof.
  intros Hnot. unfold match_index.
  assert (filter (λ p : nat * string, p.2 = movie) (enumerate (new_df_title m)) = [])
    as ->; [| done].
  apply elem_of_nil_inv. intros [i t] Hin.
  apply list_elem_of_filter in Hin as [Heq Hin]. simpl in Heq. subst t.
  apply elem_of_enumerate_from in Hin as [_ Hin].
  apply Hnot. by eapply list_elem_of_lookup_2.
Qed.

End RankerFacts.

(** ** Claims about the ranker *)

Module RankerSpec.
Import Py PyFacts Recommender RankerOrder RankerFacts.
Local Open Scope Q_scope.

(** C1 (the code departs from the claim).  The claim is that the ranked
    list never contains the query item's own index, also under ties at the
    maximum and for an all-zero query row.  [recommend] drops position 0 of
    the sorted order, which is the query item only when that item heads the
    order: queried for item 1 of a catalog of two items with equal rows, it
    drops item 0 and returns the query item itself. *)
Theorem recommend_returns_query_item_on_tie :
  match_index twin_catalog "B" = [1%nat] ∧
  ranked_indices [1; 1] 5 = [1%nat] ∧
  recommend twin_catalog "B" 5 = Some ["B"%string] ∧
  match_index blank_catalog "B" = [1%nat] ∧
  ranked_indices [0; 0] 5 = [1%nat] ∧
  recommend blank_catalog "B" 5 = Some ["B"%string].
Proof. by vm_compute. Qed.

(** Where the query item does head the sorted order, the slice leaves it
    out. *)
Lemma ranked_excludes_dominant (distances : list Q) (top_k : Z) (q : nat) (vq : Q) :
  dominant distances q vq → q ∉ ranked_indices distances top_k.
Proof.
  intros Hdom Hin. pose proof Hdom as (Hq & _).
  apply list_elem_of_lookup in Hin as [p Hp].
  apply ranked_lookup in Hp as (v & Hv & Hp & _).
  assert (clip (length distances) 1 = 1%nat) as Hc.
  { apply lookup_lt_Some in Hq. rewrite clip_nonneg by lia. lia. }
  rewrite Hc in Hp.
  destruct (by_similarity_head _ _ _ Hdom) as [rest Hrest].
  pose proof (by_similarity_sorted distances) as Hs. rewrite Hrest in Hs, Hp.
  apply StronglySorted_inv in Hs as [_ Hall]. rewrite Forall_forall in Hall.
  simpl in Hp. apply list_elem_of_lookup_2 in Hp.
  apply Hall in Hp. assert (v = vq) as -> by congruence.
  by apply before_irrefl in Hp.
Qed.




(** C5, counterexample.  The failure is reported in band, as a list of one
    string, which is what a successful call returns as well: in this
    catalog the answer for the unknown title X is the answer for the known
    title A. *)
Lemma not_found_equals_a_recommendation :
  let m := Model ["A"; "Movie not found: 'X'"]%string [[1; 0]; [0; 1]] in
  ("X"%string ∉ new_df_title m) ∧ ("A"%string ∈ new_df_title m) ∧
  recommend m "X" 1 = Some ["Movie not found: 'X'"%string] ∧
  recommend m "A" 1 = recommend m "X" 1.
Proof.
  simpl. split_and!; [| | by vm_compute..].
  - intros H. repeat (apply elem_of_cons in H as [H | H]; [done |]).
    by apply elem_of_nil in H.
  - by left.
Qed.

(** C5, amended.  For a title that no catalog item carries, [recommend]
    raises nothing and returns the list whose only element is the message
    "Movie not found: '<title>'", for every [top_k] and every model; the
    result has the type of a recommendation list. *)
Theorem recommend_unknown_title (m : model) (movie : string) (top_k : Z) :
  movie ∉ new_df_title m →
  recommend m movie top_k = Some [not_found_message movie].
Proof.
  intros Hnot. unfold recommend. by rewrite match_index_absent.
Qed.

Lemma recommend_unknown_title_witness :
  recommend twin_catalog "C" 5 = Some ["Movie not found: 'C'"%string].
Proof.
  apply (recommend_unknown_title twin_catalog "C" 5).
  intros H. repeat (apply elem_of_cons in H as [H | H]; [done |]).
  by apply elem_of_nil in H.
Defined.

(** C7 (the code departs from the claim).  The claim is that among the
    items other than the query item, ties in similarity are resolved by
    ascending index, for every similarity row.  The sort does order ties
    that way, but [recommend] then drops position 0 of the sorted order
    whatever item stands there.  Queried for item 1 of three items with an
    all-zero row, it drops item 0 and lists the query item and item 2: of
    the tied items 0 and 2 the later one is listed and the earlier one is
    not.  Queried for item 2 of three items with equal rows and
    [top_k = 1], it returns item 1, not item 0. *)
Theorem tied_item_dropped_for_query_item :
  match_index blank_trio "B" = [1%nat] ∧
  ranked_indices [0; 0; 0] 5 = [1%nat; 2%nat] ∧
  recommend blank_trio "B" 5 = Some ["B"; "C"]%string ∧
  match_index triplet_catalog "C" = [2%nat] ∧
  ranked_indices [1; 1; 1] 1 = [1%nat] ∧
  recommend triplet_catalog "C" 1 = Some ["B"%string].
Proof. by vm_compute. Qed.

(** What the stable sort does give: of two items [i < j] with equal
    similarity, [i] stands before [j] whenever both are in the ranked list;
    and whenever [j] is in the list, so is [i], before it, unless [i] is
    the item at position 0 of the sorted order. *)
Lemma ranked_ties_by_ascending_index
    (distances : list Q) (top_k : Z) (i j : nat) (vi vj : Q) :
  distances !! i = Some vi →
  distances !! j = Some vj →
  vi == vj →
  (i < j)%nat →
  (∀ pi pj, ranked_indices distances top_k !! pi = Some i →
            ranked_indices distances top_k !! pj = Some j →
            (pi < pj)%nat) ∧
  (∀ pj, ranked_indices distances top_k !! pj = Some j →
         by_similarity distances !! 0%nat = Some (i, vi) ∨
         ∃ pi, (pi < pj)%nat ∧ ranked_indices distances top_k !! pi = Some i).
Proof.
  intros Hi Hj Heq Hlt.
  pose proof (by_similarity_sorted distances) as Hs.
  assert (¬ before (j, vj) (i, vi)) as Hnot.
  { intros [H | [_ H]]; simpl in *; [| lia].
    rewrite Heq in H. by apply Qlt_irrefl in H. }
  split.
  - intros pi pj Hpi Hpj.
    apply ranked_lookup in Hpi as (wi & Hwi & Hpi & _).
    apply ranked_lookup in Hpj as (wj & Hwj & Hpj & _).
    assert (wi = vi) as -> by congruence. assert (wj = vj) as -> by congruence.
    destruct (Nat.lt_trichotomy pi pj) as [? | [-> | Hgt]]; [done | |].
    + rewrite Hpi in Hpj. simplify_eq. lia.
    + exfalso. apply Hnot.
      eapply (StronglySorted_lookup before _ _ _ _ _ Hs Hpj Hpi). lia.
  - intros pj Hpj. pose proof Hpj as Hpj'.
    apply ranked_lookup in Hpj as (wj & Hwj & Hpj & Hbound).
    assert (wj = vj) as -> by congruence.
    assert ((i, vi) ∈ by_similarity distances) as Hin
      by by apply elem_of_by_similarity.
    apply list_elem_of_lookup in Hin as [p Hp].
    assert (clip (length distances) 1 = 1%nat) as Hc.
    { apply lookup_lt_Some in Hi. rewrite clip_nonneg by lia. lia. }
    rewrite Hc in *.
    destruct p as [|p]; [by left | right].
    assert (S p < 1 + pj)%nat as Hord.
    { destruct (Nat.lt_trichotomy (S p) (1 + pj)) as [? | [He | Hgt]]; [done | |].
      - rewrite He in Hp. rewrite Hp in Hpj. simplify_eq. lia.
      - exfalso. apply Hnot.
        by eapply (StronglySorted_lookup before _ _ _ _ _ Hs Hpj Hp). }
    exists p. split; [lia |].
    unfold ranked_indices, ranked. fold (by_similarity distances).
    rewrite list_lookup_fmap.
    assert (slice (by_similarity distances) 1 (top_k + 1) !! p = Some (i, vi))
      as ->; [| done].
    apply slice_lookup. rewrite by_similarity_length, Hc. split; [lia | done].
Qed.

Lemma ranked_ties_by_ascending_index_witness :
  ranked_indices [1; 4#5; 4#5] 5 !! 0%nat = Some 1%nat ∧
  ranked_indices [1; 4#5; 4#5] 5 !! 1%nat = Some 2%nat ∧
  (0 < 1)%nat.
Proof.
  split_and!; [done.. |].
  assert (4#5 == 4#5) as Heq by reflexivity.
  destruct (ranked_ties_by_ascending_index [1; 4#5; 4#5] 5 1 2 (4#5) (4#5))
    as [Hboth _]; [reflexivity | reflexivity | exact Heq | lia |].
  apply (Hboth 0%nat 1%nat); reflexivity.
Defined.

End RankerSpec.

(** ** Strings and tag sets *)

Module TagFacts.
Import Py TagNotions Metrics.

Lemma lstrip_blank (s : string) : blank s = true → lstrip s = EmptyString.
Proof.
  induction s as [|c s IH]; simpl; [done |].
  intros [Hc Hs]%andb_prop. rewrite Hc. by apply IH.
Qed.

Lemma lstrip_not_blank (s : string) : blank s = false → blank (lstrip s) = false.
Proof.
  induction s as [|c s IH]; simpl; [done |].
  destruct (isspace c) eqn:Hc; simpl; [done |]. by rewrite Hc.
Qed.

Lemma rstrip_blank (s : string) : blank s = true → rstrip s = EmptyString.
Proof.
  induction s as [|c s IH]; simpl; [done |].
  intros [Hc Hs]%andb_prop. by rewrite IH, Hc.
Qed.

Lemma rstrip_not_blank (s : string) : blank s = false → rstrip s ≠ EmptyString.
Proof.
  induction s as [|c s IH]; simpl; [done |].
  intros H. destruct (rstrip s) eqn:E; [| done].
  destruct (isspace c) eqn:Hc; [| done].
  simpl in H. by apply IH in H.
Qed.

(** [not tags.strip()] holds exactly for the blank strings. *)
Lemma strip_bool (s : string) : str_bool (strip s) = negb (blank s).
Proof.
  unfold strip. destruct (blank s) eqn:E; simpl.
  - by rewrite lstrip_blank.
  - apply lstrip_not_blank in E. apply rstrip_not_blank in E.
    by destruct (rstrip (lstrip s)).
Qed.

Lemma blank_string_of_list (l : list ascii) :
  blank (string_of_list_ascii l) = forallb isspace l.
Proof. induction l as [|c l IH]; simpl; [done |]. by rewrite IH. Qed.

Lemma forallb_isspace_app (l k : list ascii) :
  forallb isspace (l ++ k) = forallb isspace l && forallb isspace k.
Proof. induction l as [|c l IH]; simpl; [done |]. by rewrite IH, andb_assoc. Qed.

(** Every token of [split] has a character that is not white space, and
    there is a token as soon as the string has such a character. *)
Lemma split_aux_tokens (cur : list ascii) (s : string) :
  Forall (λ c, isspace c = false) cur →
  Forall (λ t, blank t = false) (split_aux cur s) ∧
  ((cur ≠ [] ∨ blank s = false) → split_aux cur s ≠ []).
Proof.
  revert cur. induction s as [|c s IH]; intros cur Hcur; simpl.
  - destruct cur as [|d cur]; [split; [constructor | by intros [? | ?]] |].
    split; [| done]. constructor; [| constructor].
    rewrite blank_string_of_list. simpl. rewrite forallb_isspace_app. simpl.
    apply Forall_cons in Hcur as [-> _]. by rewrite andb_false_r.
  - destruct (isspace c) eqn:Hc; simpl.
    + destruct (IH [] (Forall_nil_2 _)) as [IH1 IH2].
      destruct cur as [|d cur]; simpl.
      * split; [done |]. intros [? | ?]; [done |]. apply IH2. by right.
      * split; [| done]. constructor; [| done].
        rewrite blank_string_of_list. simpl. rewrite forallb_isspace_app. simpl.
        apply Forall_cons in Hcur as [-> _]. by rewrite andb_false_r.
    + destruct (IH (c :: cur)) as [IH1 IH2]; [by constructor |].
      split; [done |]. intros _. apply IH2. by left.
Qed.

Lemma split_tokens (s : string) :
  Forall (λ t, blank t = false) (split s) ∧
  (blank s = false → split s ≠ []).
Proof.
  destruct (split_aux_tokens [] s (Forall_nil_2 _)) as [H1 H2].
  split; [done |]. intros H. apply H2. by right.
Qed.

Lemma tag_set_not_str (v : value) :
  isinstance_str v = false → _tag_set v = Some ∅.
Proof. by destruct v. Qed.

Lemma tag_set_blank (s : string) :
  blank s = true → _tag_set (VStr s) = Some ∅.
Proof. intros H. unfold _tag_set. simpl. by rewrite strip_bool, H. Qed.

Lemma tag_set_tagless (v : value) : tagless v = true → _tag_set v = Some ∅.
Proof.
  destruct v; simpl; intros H; try by apply tag_set_not_str.
  by apply tag_set_blank.
Qed.

Lemma tag_set_not_blank (s : string) :
  blank s = false → ∃ a, _tag_set (VStr s) = Some a ∧ a ≠ ∅.
Proof.
  intros H. unfold _tag_set. simpl. rewrite strip_bool, H. simpl.
  eexists. split; [done |].
  destruct (split_tokens s) as [Htok Hne]. specialize (Hne H).
  destruct (split s) as [|t ts]; [done |].
  apply Forall_cons in Htok as [Ht _].
  rewrite filter_cons_True by (by rewrite strip_bool, Ht).
  rewrite fmap_cons. simpl. set_solver.
Qed.

Lemma tag_set_total (v : value) : is_Some (_tag_set v).
Proof.
  destruct (tagless v) eqn:E.
  - rewrite tag_set_tagless by done. by eexists.
  - destruct v; try done. simpl in E.
    destruct (tag_set_not_blank _ E) as (a & -> & _). by eexists.
Qed.

End TagFacts.

(** ** Claims about the relevance judge *)

Module JudgeSpec.
Import Py TagNotions Metrics TagFacts.

Lemma Qlen_pos (a : gset string) : a ≠ ∅ → (0 < Qlen a)%Q.
Proof.
  intros Ha. unfold Qlen. change 0%Q with (inject_Z 0). rewrite <- Zlt_Qlt.
  assert (size a ≠ 0%nat) by (by intros ?%size_empty_inv%leibniz_equiv).
  lia.
Qed.

(** C6, counterexample.  The string of one space is not empty, and its
    graded relevance with itself is 0, not 1. *)
Lemma self_relevance_of_space :
  " "%string ≠ ""%string ∧
  relevance_score_tag_overlap (VStr " ") (VStr " ") = Some 0%Q ∧
  ¬ (0 == 1)%Q.
Proof. split_and!; done. Qed.

(** C6, amended.  The graded relevance of a tag string with itself is 1
    when the string has at least one character that is not white space, and
    0 when it has none (the empty string and the strings of white space
    only). *)
Theorem self_relevance (tags : string) :
  (blank tags = false →
     ∃ x, relevance_score_tag_overlap (VStr tags) (VStr tags) = Some x ∧
          (x == 1)%Q) ∧
  (blank tags = true →
     relevance_score_tag_overlap (VStr tags) (VStr tags) = Some 0%Q).
Proof.
  split; intros H; unfold relevance_score_tag_overlap.
  - destruct (tag_set_not_blank _ H) as (a & -> & Ha). simpl.
    rewrite bool_decide_eq_false_2 by done. simpl.
    eexists. split; [done |].
    rewrite intersection_idemp_L, union_idemp_L.
    apply Qlen_pos in Ha. field. intros E. rewrite E in Ha.
    by apply Qlt_irrefl in Ha.
  - rewrite tag_set_blank by done. done.
Qed.

Lemma self_relevance_witness :
  (∃ x, relevance_score_tag_overlap (VStr "war drama") (VStr "war drama")
        = Some x ∧ (x == 1)%Q) ∧
  relevance_score_tag_overlap (VStr "") (VStr "") = Some 0%Q.
Proof.
  split.
  - by apply (self_relevance "war drama").
  - by apply (self_relevance "").
Defined.

(** C9, counterexample.  With a threshold of 0 common tags two missing tag
    values are judged relevant: the result is True, not False. *)
Lemma tagless_relevant_at_threshold_zero :
  tagless VNone = true ∧ tagless VNaN = true ∧
  relevance_by_tag_overlap VNone VNaN 0 = Some true.
Proof. split_and!; done. Qed.

(** C9, amended.  Both relevance functions return for every pair of values
    and every threshold, raising nothing.  A value that is not a string, or
    a string of white space only (or empty), counts as the empty tag set:
    if either argument is such a value, [relevance_score_tag_overlap]
    returns 0.0 and [relevance_by_tag_overlap] returns False for every
    threshold [min_common ≥ 1], the default 3 among them (and True for
    [min_common ≤ 0]). *)
Theorem relevance_total (query_tags candidate_tags : value) (min_common : Z) :
  is_Some (relevance_by_tag_overlap query_tags candidate_tags min_common) ∧
  is_Some (relevance_score_tag_overlap query_tags candidate_tags) ∧
  (tagless query_tags = true ∨ tagless candidate_tags = true →
     relevance_score_tag_overlap query_tags candidate_tags = Some 0%Q ∧
     relevance_by_tag_overlap query_tags candidate_tags default_min_common
       = Some false ∧
     relevance_by_tag_overlap query_tags candidate_tags min_common
       = Some (min_common <=? 0)).
Proof.
  destruct (tag_set_total query_tags) as [a Ha].
  destruct (tag_set_total candidate_tags) as [b Hb].
  unfold relevance_by_tag_overlap, relevance_score_tag_overlap.
  rewrite Ha, Hb. simpl. split_and!.
  - by eexists.
  - destruct (_ || _); by eexists.
  - intros Hempty.
    assert (a = ∅ ∨ b = ∅) as Hab.
    { destruct Hempty as [H | H]; apply tag_set_tagless in H; [left | right];
        congruence. }
    assert (a ∩ b = ∅) as ->.
    { destruct Hab as [-> | ->];
        [apply intersection_empty_l_L | apply intersection_empty_r_L]. }
    rewrite size_empty. split_and!; [| done..].
    destruct Hab as [-> | ->]; [done |].
    rewrite (bool_decide_eq_true_2 (∅ = ∅)) by done. by rewrite orb_true_r.
Qed.

Lemma relevance_total_witness :
  relevance_score_tag_overlap VNaN (VStr "war drama") = Some 0%Q ∧
  relevance_by_tag_overlap VNaN (VStr "war drama") 3 = Some false.
Proof.
  destruct (relevance_total VNaN (VStr "war drama") 3) as (_ & _ & H).
  destruct H as (H1 & H2 & _); [by left |]. by split.
Defined.

End JudgeSpec.

(** ** Claims about Precision@K and catalog coverage *)

Module SetMetricsSpec.
Import Py PyFacts Metrics.

(** C3, counterexample.  With [k = 0] passed for a recommended list that is
    not empty, [k or len(recommended)] replaces it by the length of the
    list, and the precision is 1, not 0. *)
Lemma precision_at_zero_of_nonempty :
  let p := precision_at_k [1] [1] (Some 0) in
  (p == 1)%Q ∧ ¬ (p == 0)%Q.
Proof. split; by vm_compute. Qed.

(** C3, amended.  For every [k > 0], [precision_at_k] returns
    |set(recommended[:k]) ∩ set(relevant)| / k.  A [k] that is absent or 0
    stands for [len(recommended)]: the result is then 0 when [recommended]
    is empty, and |set(recommended) ∩ set(relevant)| / len(recommended)
    when it is not. *)
Theorem precision_at_k_cases (recommended relevant : list Z) :
  (∀ k, 0 < k →
     precision_at_k recommended relevant (Some k)
     = (Qcard (list_to_set (take (Z.to_nat k) recommended) ∩ list_to_set relevant)
        / Qz k)%Q) ∧
  (∀ k, k = None ∨ k = Some 0 →
     (recommended = [] → precision_at_k recommended relevant k = 0%Q) ∧
     (recommended ≠ [] →
        precision_at_k recommended relevant k
        = (Qcard (list_to_set recommended ∩ list_to_set relevant)
           / Qz (Z.of_nat (length recommended)))%Q)).
Proof.
  split.
  - intros k Hk. unfold precision_at_k. simpl.
    destruct (Z.eqb_spec k 0) as [-> | _]; [lia |].
    destruct (Z.eqb_spec k 0) as [-> | _]; [lia |].
    by rewrite prefix_nonneg by lia.
  - intros k Hk.
    assert (or_default k (Z.of_nat (length recommended))
            = Z.of_nat (length recommended)) as Hd
      by (by destruct Hk as [-> | ->]).
    unfold precision_at_k. rewrite Hd. split.
    + by intros ->.
    + intros Hne. destruct (Z.eqb_spec (Z.of_nat (length recommended)) 0) as [E | _].
      * destruct recommended; [done | simpl in E; lia].
      * by rewrite prefix_length.
Qed.

Lemma precision_at_k_cases_witness :
  let hits : gset Z := list_to_set (take 4 [1; 2; 3; 4]) ∩ list_to_set [2; 4; 9] in
  precision_at_k [1; 2; 3; 4] [2; 4; 9] (Some 4) = (Qcard hits / Qz 4)%Q ∧
  precision_at_k [] [2; 4; 9] None = 0%Q.
Proof.
  destruct (precision_at_k_cases [1; 2; 3; 4] [2; 4; 9]) as [Hpos _].
  destruct (precision_at_k_cases [] [2; 4; 9]) as [_ Hzero].
  split.
  - apply (Hpos 4). lia.
  - destruct (Hzero None) as [H0 _]; [by left |]. by apply H0.
Defined.

(** The design document's example: 2 of the 4 recommended items are
    relevant. *)
Example precision_example :
  let p := precision_at_k [1; 2; 3; 4] [2; 4; 9] (Some 4) in (p == 1 # 2)%Q.
Proof. by vm_compute. Qed.

(** [covered] after the loop is the union of the lists. *)
Lemma covered_items_foldl (acc : gset Z) (lists : list (list Z)) :
  foldl (λ covered rec_list, covered ∪ list_to_set rec_list) acc lists
  = acc ∪ covered_items lists.
Proof.
  unfold covered_items. revert acc.
  induction lists as [|l lists IH]; intros acc; simpl.
  - by rewrite union_empty_r_L.
  - rewrite IH, (IH (∅ ∪ _)), union_empty_l_L. by rewrite (assoc_L (∪)).
Qed.

Lemma covered_items_app (lists more : list (list Z)) :
  covered_items (lists ++ more) = covered_items lists ∪ covered_items more.
Proof.
  unfold covered_items at 1. rewrite foldl_app.
  fold (covered_items lists). apply covered_items_foldl.
Qed.

Lemma elem_of_covered_items (x : Z) (lists : list (list Z)) :
  x ∈ covered_items lists ↔ ∃ rec_list, rec_list ∈ lists ∧ x ∈ rec_list.
Proof.
  induction lists as [|l lists IH].
  - unfold covered_items. simpl. split; [by intros ?%not_elem_of_empty |].
    by intros (? & ?%elem_of_nil & _).
  - change (l :: lists) with ([l] ++ lists). rewrite covered_items_app.
    rewrite elem_of_union, IH. unfold covered_items. simpl.
    rewrite union_empty_l_L, elem_of_list_to_set. split.
    + intros [H | (r & Hr & Hx)]; [exists l | exists r]; split; try done.
      * by left.
      * by right.
    + intros (r & Hr & Hx). apply elem_of_cons in Hr as [-> | Hr]; [by left |].
      right. by exists r.
Qed.

(** C8.  For a fixed catalog size (a size: not negative), the catalog
    coverage of a sequence of recommendation lists does not decrease when
    further lists are appended. *)
Theorem catalog_coverage_monotone
    (all_recommendations more : list (list Z)) (catalog_size : Z) :
  0 ≤ catalog_size →
  (catalog_coverage all_recommendations catalog_size
   <= catalog_coverage (all_recommendations ++ more) catalog_size)%Q.
Proof.
  intros Hsize. unfold catalog_coverage.
  destruct (Z.eqb_spec catalog_size 0) as [_ | Hne]; [apply Qle_refl |].
  unfold Qdiv. apply Qmult_le_compat_r.
  - unfold Qcard. rewrite <- Zle_Qle. apply inj_le, subseteq_size.
    rewrite covered_items_app. apply union_subseteq_l.
  - apply Qinv_le_0_compat. unfold Qz. change 0%Q with (inject_Z 0).
    rewrite <- Zle_Qle. lia.
Qed.

Lemma catalog_coverage_monotone_witness :
  Qle (catalog_coverage [[1; 2]] 10)
      (catalog_coverage ([[1; 2]] ++ [[2; 3]]) 10).
Proof. apply (catalog_coverage_monotone [[1; 2]] [[2; 3]] 10). lia. Defined.

End SetMetricsSpec.

(** ** Claims about the diversity measures *)

Module DiversitySpec.
Import Py PyFacts Metrics DiversityNotions.

Lemma for_each_invariant {S X} (P : S → Prop) (xs : list X)
    (body : X → S → option S) (s s' : S) :
  (∀ x t t', P t → body x t = Some t' → P t') →
  P s → for_each xs body s = Some s' → P s'.
Proof.
  intros Hbody. revert s. induction xs as [|x xs IH]; intros s Hs Hrun; simpl in *.
  - by simplify_eq.
  - destruct (body x s) as [t|] eqn:E; simpl in *; [| done].
    eapply IH; [| done]. by eapply Hbody.
Qed.

Lemma for_each_returns {S X} (xs : list X) (body : X → S → option S) (s : S) :
  (∀ x t, x ∈ xs → is_Some (body x t)) → is_Some (for_each xs body s).
Proof.
  revert s. induction xs as [|x xs IH]; intros s Hbody; simpl; [by eexists |].
  destruct (Hbody x s) as [t ->]; [by left |]. simpl.
  apply IH. intros y u Hy. apply Hbody. by right.
Qed.

Lemma np_axis_Some (len : nat) (i : Z) (r : nat) :
  np_axis len i = Some r → (r < len)%nat.
Proof.
  unfold np_axis.
  destruct (Z.leb_spec 0 i), (Z.ltb_spec i (Z.of_nat len)),
    (Z.leb_spec (- Z.of_nat len) i), (Z.ltb_spec i 0);
    simpl; intros; simplify_eq; lia.
Qed.

Lemma np_axis_valid (len : nat) (i : Z) :
  - Z.of_nat len ≤ i < Z.of_nat len → is_Some (np_axis len i).
Proof.
  intros H. unfold np_axis.
  destruct (Z.leb_spec 0 i), (Z.ltb_spec i (Z.of_nat len)),
    (Z.leb_spec (- Z.of_nat len) i), (Z.ltb_spec i 0);
    simpl; try (by eexists); lia.
Qed.

Lemma np_get_unit (M : list (list Q)) (ii jj : Z) (sim : Q) :
  entries_in_unit M → np_get M ii jj = Some sim → unit_interval sim.
Proof.
  intros HM H. unfold np_get in H.
  destruct (np_axis (length M) ii) as [r|]; simpl in H; [| done].
  destruct (M !! r) as [row|] eqn:Hrow; simpl in H; [| done].
  destruct (np_axis (length row) jj) as [c|]; simpl in H; [| done].
  unfold entries_in_unit in HM. rewrite Forall_lookup in HM.
  specialize (HM _ _ Hrow). rewrite Forall_lookup in HM. by eapply HM.
Qed.

Lemma np_get_valid (M : list (list Q)) (N : nat) (ii jj : Z) :
  square M N →
  - Z.of_nat N ≤ ii < Z.of_nat N → - Z.of_nat N ≤ jj < Z.of_nat N →
  is_Some (np_get M ii jj).
Proof.
  intros [Hlen Hrows] Hi Hj. unfold np_get. rewrite Hlen.
  destruct (np_axis_valid N ii Hi) as [r Hr]. rewrite Hr. simpl.
  destruct (lookup_lt_is_Some_2 M r) as [row Hrow];
    [apply np_axis_Some in Hr; lia |].
  rewrite Hrow. simpl. rewrite Forall_lookup in Hrows.
  rewrite (Hrows _ _ Hrow).
  destruct (np_axis_valid N jj Hj) as [c Hc]. rewrite Hc. simpl.
  apply lookup_lt_is_Some_2. apply np_axis_Some in Hc.
  by rewrite (Hrows _ _ Hrow).
Qed.

Lemma Qz_succ (n : nat) : (Qz (Z.of_nat (n + 1)) == Qz (Z.of_nat n) + 1)%Q.
Proof.
  unfold Qz. rewrite Nat2Z.inj_add, inject_Z_plus. reflexivity.
Qed.

Lemma pair_step_bounded (M : list (list Q)) (l : list Z) (i j : nat) (s s' : acc) :
  entries_in_unit M → bounded s → pair_step M l i j s = Some s' → bounded s'.
Proof.
  intros HM [H0 H1] H. unfold pair_step in H.
  destruct (l !! i) as [ii|]; simpl in H; [| done].
  destruct (l !! j) as [jj|]; simpl in H; [| done].
  destruct (np_get M ii jj) as [sim|] eqn:E; simpl in H; [| done].
  simplify_eq. destruct (np_get_unit _ _ _ _ HM E) as [Hs0 Hs1].
  unfold bounded. simpl. rewrite Qz_succ. split; Lqa.lra.
Qed.

Lemma loops_bounded (M : list (list Q)) (l : list Z) (n : nat) (s : acc) :
  entries_in_unit M →
  for_each (range n)
    (λ i, for_each (range2 (i + 1) n) (pair_step M l i)) (Acc 0%Q 0) = Some s →
  bounded s.
Proof.
  intros HM. apply (for_each_invariant bounded).
  - intros i t t' Ht. apply (for_each_invariant bounded); [| done].
    intros j u u'. by apply pair_step_bounded.
  - split; simpl; [apply Qle_refl | by vm_compute].
Qed.

Lemma diversity_unit (M : list (list Q)) (l : list Z) (v : Q) :
  entries_in_unit M → intra_list_diversity M l = Some v → unit_interval v.
Proof.
  intros HM. unfold intra_list_diversity.
  destruct (length l <? 2)%nat.
  { intros ?; simplify_eq. split; by vm_compute. }
  destruct (for_each _ _ _) as [s|] eqn:E; simpl; [| done].
  intros ?; simplify_eq. apply loops_bounded in E as [H0 H1]; [| done].
  destruct (Nat.eqb_spec (count s) 0) as [_ | Hne]; [split; by vm_compute |].
  assert (0 < Qz (Z.of_nat (count s)))%Q as Hpos.
  { unfold Qz. change 0%Q with (inject_Z 0). rewrite <- Zlt_Qlt. lia. }
  split.
  - apply Qle_shift_div_l; [done |]. by rewrite Qmult_0_l.
  - apply Qle_shift_div_r; [done |]. by rewrite Qmult_1_l.
Qed.

Lemma pair_step_returns (M : list (list Q)) (N : nat) (l : list Z)
    (i j : nat) (s : acc) :
  square M N → valid_indices N l →
  (i < length l)%nat → (j < length l)%nat →
  is_Some (pair_step M l i j s).
Proof.
  intros HM Hl Hi Hj. unfold pair_step.
  destruct (lookup_lt_is_Some_2 l i Hi) as [ii Hii].
  destruct (lookup_lt_is_Some_2 l j Hj) as [jj Hjj].
  rewrite Hii, Hjj. simpl. unfold valid_indices in Hl.
  rewrite Forall_lookup in Hl.
  destruct (np_get_valid M N ii jj HM) as [sim ->]; [by eapply Hl.. |].
  by eexists.
Qed.

Lemma diversity_returns (M : list (list Q)) (N : nat) (l : list Z) :
  square M N → valid_indices N l → is_Some (intra_list_diversity M l).
Proof.
  intros HM Hl. unfold intra_list_diversity.
  destruct (length l <? 2)%nat; [by eexists |].
  destruct (for_each_returns (range (length l))
              (λ i, for_each (range2 (i + 1) (length l)) (pair_step M l i))
              (Acc 0%Q 0)) as [s ->]; [| by eexists].
  intros i t Hi. apply for_each_returns. intros j u Hj.
  unfold range, range2 in Hi, Hj. apply elem_of_seq in Hi, Hj.
  eapply pair_step_returns; [done.. | lia | lia].
Qed.

Lemma sumQ_bounds (xs : list Q) (a : Q) :
  Forall unit_interval xs →
  (a <= foldl Qplus a xs)%Q ∧
  (foldl Qplus a xs <= a + Qz (Z.of_nat (length xs)))%Q.
Proof.
  intros Hxs. revert a. induction Hxs as [|x xs [Hx0 Hx1] _ IH]; intros a; simpl.
  - change (Qz (Z.of_nat 0)) with 0%Q. split; Lqa.lra.
  - destruct (IH (a + x)%Q) as [IH0 IH1].
    replace (S (length xs)) with (length xs + 1)%nat by lia.
    rewrite Qz_succ. split; Lqa.lra.
Qed.

Lemma np_mean_unit (xs : list Q) :
  xs ≠ [] → Forall unit_interval xs → unit_interval (np_mean xs).
Proof.
  intros Hne Hxs. destruct (sumQ_bounds xs 0 Hxs) as [H0 H1].
  unfold np_mean, sumQ.
  assert (0 < Qz (Z.of_nat (length xs)))%Q as Hpos.
  { unfold Qz. change 0%Q with (inject_Z 0). rewrite <- Zlt_Qlt.
    destruct xs; [done | simpl; lia]. }
  split.
  - apply Qle_shift_div_l; [done |]. by rewrite Qmult_0_l.
  - apply Qle_shift_div_r; [done |]. rewrite Qmult_1_l. Lqa.lra.
Qed.

Lemma average_unit (M : list (list Q)) (lists : list (list Z)) (v : Q) :
  entries_in_unit M → average_diversity M lists = Some v → unit_interval v.
Proof.
  intros HM. unfold average_diversity.
  destruct lists as [|l0 lists0] eqn:El.
  { intros ?; simplify_eq. split; by vm_compute. }
  rewrite <- El. clear El.
  destruct (mapM _ _) as [divs|] eqn:E; simpl; [| done].
  intros ?; simplify_eq.
  assert (Forall unit_interval divs) as Hdivs.
  { apply mapM_Some in E.
    induction E as [|l x ls xs Hx _ IH]; constructor; [| done].
    by eapply diversity_unit. }
  destruct divs as [|d ds]; [split; by vm_compute |].
  by apply np_mean_unit.
Qed.

Lemma average_returns (M : list (list Q)) (N : nat) (lists : list (list Z)) :
  square M N → Forall (valid_indices N) lists →
  is_Some (average_diversity M lists).
Proof.
  intros HM Hl. unfold average_diversity.
  destruct lists as [|l0 lists0] eqn:El; [by eexists |].
  rewrite <- El in *. clear El.
  assert (is_Some (mapM (intra_list_diversity M)
                     (filter (λ rec, (2 <= length rec)%nat) lists))) as [divs ->];
    [| by eexists].
  apply mapM_is_Some. apply Forall_forall. intros l Hin.
  apply list_elem_of_filter in Hin as [_ Hin].
  rewrite Forall_forall in Hl. eapply diversity_returns; [done |]. by apply Hl.
Qed.

(** C10.  For a similarity matrix with all entries in [0,1]:
    [intra_list_diversity] returns 0 for a list of fewer than two indices,
    every value it returns lies in [0,1], and it does return a value for
    every list of indices of the matrix; consequently the same holds of
    [average_diversity] over any collection of such lists. *)
Theorem diversity_in_unit_interval (similarity_matrix : list (list Q)) :
  entries_in_unit similarity_matrix →
  (∀ l, (length l < 2)%nat →
        intra_list_diversity similarity_matrix l = Some 0%Q) ∧
  (∀ l v, intra_list_diversity similarity_matrix l = Some v → unit_interval v) ∧
  (∀ N l, square similarity_matrix N → valid_indices N l →
          ∃ v, intra_list_diversity similarity_matrix l = Some v ∧
               unit_interval v) ∧
  (∀ lists v, average_diversity similarity_matrix lists = Some v →
              unit_interval v) ∧
  (∀ N lists, square similarity_matrix N → Forall (valid_indices N) lists →
              ∃ v, average_diversity similarity_matrix lists = Some v ∧
                   unit_interval v).
Proof.
  intros HM. split_and!.
  - intros l Hl. unfold intra_list_diversity.
    by destruct (Nat.ltb_spec (length l) 2); [| lia].
  - intros l v. by apply diversity_unit.
  - intros N l Hsq Hl. destruct (diversity_returns _ _ _ Hsq Hl) as [v Hv].
    exists v. split; [done |]. by eapply diversity_unit.
  - intros lists v. by apply average_unit.
  - intros N lists Hsq Hl. destruct (average_returns _ _ _ Hsq Hl) as [v Hv].
    exists v. split; [done |]. by eapply average_unit.
Qed.

Lemma diversity_in_unit_interval_witness :
  ∃ v, intra_list_diversity [[1; 1#2]; [1#2; 1]]%Q [0; -1; 1] = Some v ∧
       unit_interval v.
Proof.
  assert (entries_in_unit [[1; 1#2]; [1#2; 1]]%Q) as HM
    by (repeat constructor; by vm_compute).
  destruct (diversity_in_unit_interval _ HM) as (_ & _ & H & _).
  apply (H 2%nat).
  - split; [done | by repeat constructor].
  - repeat constructor; lia.
Defined.

End DiversitySpec.

(** ** Claims about NDCG@K *)

Module NdcgSpec.
Import Py PyFacts Metrics DesignDoc.

Lemma log2_2 : log2 (INR 2) = 1%R.
Proof.
  unfold log2. simpl. assert (0 < ln 2)%R as H.
  { rewrite <- ln_1. apply ln_increasing; Lra.lra. }
  replace (1 + 1)%R with 2%R by Lra.lra. field. Lra.lra.
Qed.

Lemma Rle_bool_true (x y : R) : (x <= y)%R → Rle_bool x y = true.
Proof. intros H. unfold Rle_bool. by destruct (Rle_dec x y). Qed.

Lemma Rle_bool_false (x y : R) : (y < x)%R → Rle_bool x y = false.
Proof. intros H. unfold Rle_bool. destruct (Rle_dec x y); [Lra.lra | done]. Qed.

Lemma sigma_ext (n : nat) (f g : nat → R) :
  (∀ i, (i < n)%nat → f i = g i) → sigma n f = sigma n g.
Proof.
  induction n as [|n IH]; intros H; simpl; [done |].
  rewrite IH by (intros; apply H; lia). rewrite H by lia. done.
Qed.

Lemma enumerate_from_snoc {A} (l : list A) (x : A) (s : nat) :
  enumerate_from s (l ++ [x]) = enumerate_from s l ++ [((s + length l)%nat, x)].
Proof.
  revert s. induction l as [|y l IH]; intros s; simpl.
  - by rewrite Nat.add_0_r.
  - rewrite IH. by rewrite Nat.add_succ_r.
Qed.

(** The sum that [dcg_at_k] accumulates is the Σ of the formula. *)
Lemma sumR_enumerate (grades : list R) :
  sumR ((λ p, snd p / log2 (INR (fst p + 2)))%R <$> enumerate grades)
  = sigma (length grades) (λ i, nth i grades 0 / log2 (INR (i + 2)))%R.
Proof.
  unfold sumR, enumerate.
  induction grades as [|g grades IH] using rev_ind; [done |].
  rewrite enumerate_from_snoc, fmap_app, foldl_app, IH. simpl.
  rewrite length_app. simpl. rewrite Nat.add_1_r. simpl.
  rewrite nth_middle. f_equal.
  apply sigma_ext. intros i Hi. by rewrite app_nth1.
Qed.

Lemma dcg_at_k_formula (grades : list R) (k : Z) :
  0 ≤ k → dcg_at_k grades k = dcgAtK grades (Z.to_nat k).
Proof.
  intros Hk. unfold dcg_at_k, dcgAtK. rewrite prefix_nonneg by done.
  assert (sumR ((λ p, snd p / log2 (INR (fst p + 2)))%R
                <$> enumerate (take (Z.to_nat k) grades))
          = sigma (Nat.min (Z.to_nat k) (length grades))
                  (λ i, nth i grades 0 / log2 (INR (i + 2)))%R) as <-.
  { rewrite sumR_enumerate, length_take. apply sigma_ext. intros i Hi.
    f_equal. rewrite <- (take_drop (Z.to_nat k) grades) at 2.
    rewrite app_nth1; [done |]. rewrite length_take. lia. }
  by destruct (take (Z.to_nat k) grades).
Qed.

Lemma insert_desc_descending (x : R) (l : list R) :
  descending l → descending (insert_desc Rle_bool id x l).
Proof.
  unfold descending. induction l as [|y l IH]; intros Hs; simpl.
  - repeat constructor.
  - unfold Rle_bool at 1, id at 1 2. destruct (Rle_dec y x) as [Hle | Hgt].
    + constructor; [done |]. constructor; [done |].
      apply StronglySorted_inv in Hs as [_ Hall].
      eapply Forall_impl; [done |]. simpl. intros; Lra.lra.
    + apply StronglySorted_inv in Hs as [Hs Hall].
      constructor; [by apply IH |].
      rewrite insert_desc_Permutation. constructor; [Lra.lra | done].
Qed.

Lemma sorted_reverse_descending (l : list R) :
  descending (sorted_reverse Rle_bool id l).
Proof.
  induction l as [|x l IH]; simpl; [constructor |].
  by apply insert_desc_descending.
Qed.

(** C2 (the code departs from the claim).  The claim is that the ideal
    grade sequence is drawn from the relevance grades of all catalog items.
    [ndcg_at_k] draws it from the items [range(len(recommended))], which
    have nothing to do with the recommended ones.  For a catalog of two
    items of which only item 1 is relevant and the recommended list [1],
    the claim gives NDCG@1 = 1; the code grades item 0 alone for the ideal,
    finds an ideal DCG of 0 below the DCG of 1, and returns 0.  With item
    1 fully and item 0 half relevant, the claim again gives 1 and the code
    returns 2, above what a normalised gain can be. *)
Theorem ndcg_ideal_from_unrelated_items :
  ndcg_at_k [1] only_item_1 (Some 1) = 0%R ∧
  ndcgAtK 2 [1] only_item_1 1 = 1%R ∧
  ndcg_at_k [1] item_1_over_item_0 (Some 1) = 2%R ∧
  ndcgAtK 2 [1] item_1_over_item_0 1 = 1%R.
Proof.
  split_and!.
  - unfold ndcg_at_k. simpl. unfold dcg_at_k, sumR. simpl.
    unfold only_item_1, id. simpl.
    rewrite Rle_bool_true; [done |]. unfold Rdiv. Lra.lra.
  - unfold ndcgAtK. simpl. unfold only_item_1, id. simpl.
    rewrite (Rle_bool_false 1 0) by Lra.lra. simpl.
    unfold dcgAtK. simpl. change (1 + 1)%R with (INR 2). rewrite log2_2.
    rewrite Rle_bool_false by Lra.lra. field.
  - unfold ndcg_at_k. simpl. unfold dcg_at_k, sumR. simpl.
    unfold item_1_over_item_0, id. simpl.
    change (1 + 1)%R with (INR 2). rewrite log2_2.
    rewrite Rle_bool_false by Lra.lra. field.
  - unfold ndcgAtK. simpl. unfold item_1_over_item_0, id. simpl.
    rewrite (Rle_bool_false 1 (1 / 2)) by Lra.lra. simpl.
    unfold dcgAtK. simpl. change (1 + 1)%R with (INR 2). rewrite log2_2.
    rewrite Rle_bool_false by Lra.lra. field.
Qed.

(** What the code computes, with [k] absent or 0 standing for
    [len(recommended)] and [k ≥ 0] otherwise: the DCG of the grades of
    [recommended[:k]] divided by the DCG of the first k of the relevance
    grades of the item indices 0 .. len(recommended)-1 in descending order,
    and 0 when the latter is ≤ 0.  It agrees with the design document's
    [ndcgAtK] only for a catalog of [len(recommended)] items. *)
Lemma ndcg_at_k_formula
    (recommended : list Z) (relevance_fn : Z → R) (k : option Z) :
  (∀ z, k = Some z → 0 ≤ z) →
  let kk := Z.to_nat (or_default k (Z.of_nat (length recommended))) in
  ndcg_at_k recommended relevance_fn k
  = ndcgAtK (length recommended) recommended relevance_fn kk ∧
  ∃ ideal,
    ideal ≡ₚ (λ i, relevance_fn (Z.of_nat i)) <$> seq 0 (length recommended) ∧
    descending ideal ∧
    let dcg := dcgAtK (relevance_fn <$> take kk recommended) kk in
    let idcg := dcgAtK (take kk ideal) kk in
    ((idcg <= 0)%R → ndcg_at_k recommended relevance_fn k = 0%R) ∧
    ((0 < idcg)%R → ndcg_at_k recommended relevance_fn k = (dcg / idcg)%R).
Proof.
  intros Hk kk.
  set (ideal := sorted_reverse Rle_bool id
                  ((λ i, relevance_fn (Z.of_nat i)) <$> seq 0 (length recommended))).
  assert (0 ≤ or_default k (Z.of_nat (length recommended))) as Hnn.
  { destruct k as [z|]; simpl; [| lia].
    specialize (Hk z eq_refl). destruct (z =? 0); lia. }
  assert (ndcg_at_k recommended relevance_fn k
          = ndcgAtK (length recommended) recommended relevance_fn kk) as Heq.
  { unfold ndcg_at_k, ndcgAtK, range, range2. rewrite Nat.sub_0_r.
    by rewrite !dcg_at_k_formula, !prefix_nonneg by done. }
  split; [done |]. exists ideal. split_and!.
  - apply sorted_reverse_Permutation.
  - apply sorted_reverse_descending.
  - rewrite Heq. unfold ndcgAtK. fold ideal.
    split; intros H.
    + by rewrite Rle_bool_true.
    + by rewrite Rle_bool_false.
Qed.

Lemma ndcg_at_k_formula_witness :
  ndcg_at_k [1; 0] only_item_1 (Some 1) = 1%R.
Proof.
  destruct (ndcg_at_k_formula [1; 0] only_item_1 (Some 1))
    as (_ & ideal & Hperm & Hdesc & _ & Hpos).
  { intros z Hz. simplify_eq. lia. }
  simpl in Hperm, Hpos.
  assert (ideal = [1; 0]%R) as ->.
  { symmetry in Hperm. unfold only_item_1 in Hperm. simpl in Hperm.
    apply Permutation_length_2_inv in Hperm as [-> | ->]; [| done].
    apply StronglySorted_inv in Hdesc as [_ Hall].
    apply Forall_cons in Hall as [Hle _]. Lra.lra. }
  assert (dcgAtK [1%R] 1 = 1%R) as Hone.
  { unfold dcgAtK. simpl. change (1 + 1)%R with (INR 2). rewrite log2_2. field. }
  change (only_item_1 1) with 1%R in Hpos.
  change (Z.to_nat 1) with 1%nat in Hpos.
  change (take 1 [1%R; 0%R]) with [1%R] in Hpos. rewrite Hone in Hpos.
  rewrite Hpos; [field | Lra.lra].
Defined.

End NdcgSpec.

(** ** The design document's worked examples *)

Module WorkedExamples.
Import Py Recommender Metrics.

(** [recallAtK([1,2,3,4], {2,4,9}, k=4)] is 2/3. *)
Example recall_example :
  let r := recall_at_k [1; 2; 3; 4] [2; 4; 9] (Some 4) in (r == 2 # 3)%Q.
Proof. by vm_compute. Qed.

(** [mrr([5,2,1], {1})] is 1/3. *)
Example mrr_example :
  let r := mean_reciprocal_rank [5; 2; 1] [1] in (r == 1 # 3)%Q.
Proof. by vm_compute. Qed.

(** Three items, item 0 queried, items 1 and 2 both at 0.8: item 1 comes
    first. *)
Example tie_example :
  ranked_indices [1; 4 # 5; 4 # 5]%Q 5 = [1%nat; 2%nat].
Proof. by vm_compute. Qed.

(** The tags of an item, lower-cased and without repetition. *)
Example tag_set_example :
  _tag_set (VStr "  War  Drama war ") = Some ({["drama"]} ∪ {["war"]}).
Proof. by vm_compute. Qed.

(** Two lists over a catalog of ten items cover three of them. *)
Example coverage_example :
  let c := catalog_coverage [[1; 2]; [2; 3]] 10 in (c == 3 # 10)%Q.
Proof. by vm_compute. Qed.

(** Negative indices address the matrix from the end. *)
Example diversity_example :
  intra_list_diversity [[1; 1 # 2]; [1 # 2; 1]]%Q [0; -1; 1] = Some (4 # 12)%Q.
Proof. by vm_compute. Qed.

End WorkedExamples.

(** ** Further properties of the ranker *)

Module RankerMore.
Import Py PyFacts Recommender RankerOrder RankerFacts Notions.

(** X1.  For [top_k ≥ 0] the ranked list has [top_k] entries, or all N - 1
    entries after the head of the sorted order when there are fewer. *)
Theorem ranked_length (distances : list Q) (top_k : Z) :
  0 ≤ top_k →
  length (ranked distances top_k)
  = Nat.min (Z.to_nat top_k) (length distances - 1).
Proof.
  intros Hk. unfold ranked. rewrite slice_length.
  rewrite sorted_reverse_length. unfold enumerate.
  rewrite enumerate_from_length, !clip_nonneg by lia. lia.
Qed.

Lemma ranked_length_witness :
  length (ranked [1; 1#5; 4#5; 3#5]%Q 2) = Nat.min (Z.to_nat 2) (4 - 1).
Proof. apply (ranked_length [1; 1#5; 4#5; 3#5]%Q 2). lia. Defined.

Lemma StronglySorted_take {X} (R : relation X) (l : list X) (n : nat) :
  StronglySorted R l → StronglySorted R (take n l).
Proof.
  intros Hs. revert n. induction Hs as [|x l Hs IH Hall]; intros n.
  - rewrite take_nil. constructor.
  - destruct n as [|n]; simpl; constructor; [apply IH | by apply Forall_take].
Qed.

Lemma StronglySorted_drop {X} (R : relation X) (l : list X) (n : nat) :
  StronglySorted R l → StronglySorted R (drop n l).
Proof.
  intros Hs. revert n. induction Hs as [|x l Hs IH Hall]; intros n.
  - rewrite drop_nil. constructor.
  - destruct n as [|n]; simpl; [by constructor | apply IH].
Qed.

Lemma ranked_sorted (distances : list Q) (top_k : Z) :
  StronglySorted before (ranked distances top_k).
Proof.
  unfold ranked, slice. apply StronglySorted_take, StronglySorted_drop.
  apply by_similarity_sorted.
Qed.

(** X2.  The ranked list is in descending order of similarity, for every row
    and every [top_k]. *)
Theorem ranked_descending (distances : list Q) (top_k : Z) :
  descending_similarity (ranked distances top_k).
Proof.
  unfold descending_similarity.
  pose proof (ranked_sorted distances top_k) as Hs.
  induction Hs as [|x l Hs IH Hall]; constructor; [done |].
  eapply Forall_impl; [done |]. intros y [H | [H _]]; simpl in *.
  - by apply Qlt_le_weak.
  - rewrite H. apply Qle_refl.
Qed.

Lemma ranked_sublist (distances : list Q) (top_k : Z) :
  ranked distances top_k `sublist_of` by_similarity distances.
Proof.
  unfold ranked, slice. fold (by_similarity distances).
  etrans; [apply sublist_take | apply sublist_drop].
Qed.

Lemma ranked_entry (distances : list Q) (top_k : Z) (i : nat) (v : Q) :
  (i, v) ∈ ranked distances top_k → distances !! i = Some v.
Proof.
  intros Hin. apply elem_of_by_similarity.
  eapply elem_of_sublist; [done | apply ranked_sublist].
Qed.

(** X3.  Every entry of the ranked list is an item of the row with its own
    similarity, and no item is listed twice. *)
Theorem ranked_entries (distances : list Q) (top_k : Z) :
  Forall (λ p, distances !! fst p = Some (snd p)) (ranked distances top_k) ∧
  NoDup (ranked_indices distances top_k).
Proof.
  pose proof (ranked_sublist distances top_k) as Hsub. split.
  - apply Forall_forall. intros [i v] Hin. simpl. by eapply ranked_entry.
  - unfold ranked_indices.
    assert (NoDup (fst <$> by_similarity distances)) as Hnd
      by (rewrite by_similarity_indices; apply NoDup_seq).
    assert (fst <$> ranked distances top_k
            `sublist_of` fst <$> by_similarity distances) as Hs
      by (by apply fmap_sublist).
    by eapply sublist_NoDup.
Qed.

(** X4.  Ranked lists nest: the list for a smaller [top_k ≥ 0] is the beginning
    of the list for a larger one. *)
Theorem ranked_prefix (distances : list Q) (k k' : Z) :
  0 ≤ k ≤ k' →
  ranked distances k = take (Z.to_nat k) (ranked distances k').
Proof.
  intros Hk. unfold ranked, slice. fold (by_similarity distances).
  rewrite take_take. f_equal.
  rewrite !clip_nonneg by lia. lia.
Qed.

Lemma ranked_prefix_witness :
  ranked [1; 1#5; 4#5; 3#5]%Q 1
  = take (Z.to_nat 1) (ranked [1; 1#5; 4#5; 3#5]%Q 3).
Proof. apply (ranked_prefix [1; 1#5; 4#5; 3#5]%Q 1 3). lia. Defined.

Lemma match_index_head (movie : string) (l : list string) (s : nat) :
  movie ∈ l →
  ∃ q rest,
    fst <$> filter (λ p : nat * string, snd p = movie) (enumerate_from s l)
    = (s + q)%nat :: rest ∧
    l !! q = Some movie ∧
    ∀ j, (j < q)%nat → l !! j ≠ Some movie.
Proof.
  revert s. induction l as [|t l IH]; intros s Hin; [by apply elem_of_nil in Hin |].
  simpl. destruct (decide (t = movie)) as [-> | Hne].
  - exists 0%nat. eexists. rewrite filter_cons_True by done. simpl.
    rewrite Nat.add_0_r. split_and!; [done | done | lia].
  - apply elem_of_cons in Hin as [-> | Hin]; [done |].
    destruct (IH (S s) Hin) as (q & rest & Heq & Hq & Hleast).
    exists (S q), rest. rewrite filter_cons_False by done.
    rewrite Heq. split_and!; [f_equal; lia | done |].
    intros [|j] Hj; simpl; [congruence | apply Hleast; lia].
Qed.

(** X5.  For a title of the catalog and a model with an N×N matrix,
    [recommend] raises nothing: it ranks the row of the first item that
    carries the title and returns the titles of the ranked items, in the
    order of the ranking. *)
Theorem recommend_known_title (m : model) (movie : string) (top_k : Z) :
  well_formed m →
  movie ∈ new_df_title m →
  ∃ q distances titles,
    new_df_title m !! q = Some movie ∧
    (∀ j, (j < q)%nat → new_df_title m !! j ≠ Some movie) ∧
    similarity m !! q = Some distances ∧
    recommend m movie top_k = Some titles ∧
    Forall2 (λ i t, new_df_title m !! i = Some t)
            (ranked_indices distances top_k) titles.
Proof.
  intros [Hlen Hrows] Hin.
  destruct (match_index_head movie _ 0 Hin) as (q & rest & Heq & Hq & Hleast).
  destruct (lookup_lt_is_Some_2 (similarity m) q) as [distances Hd].
  { rewrite Hlen. by eapply lookup_lt_Some. }
  assert (length distances = length (new_df_title m)) as Hrow.
  { rewrite Forall_lookup in Hrows. by eapply Hrows. }
  assert (is_Some (mapM (λ p : nat * Q, new_df_title m !! fst p)
                        (ranked distances top_k))) as [titles Ht].
  { apply mapM_is_Some. apply Forall_forall. intros [i v] Hiv.
    apply ranked_entry in Hiv. simpl in *.
    apply lookup_lt_is_Some_2. rewrite <- Hrow. by eapply lookup_lt_Some. }
  exists q, distances, titles. split_and!; [done.. | |].
  - unfold recommend, match_index, enumerate. rewrite Heq. simpl.
    rewrite Hd. simpl. done.
  - unfold ranked_indices. apply Forall2_fmap_l. by apply mapM_Some.
Qed.

Lemma recommend_known_title_witness :
  ∃ q distances titles,
    new_df_title twin_catalog !! q = Some "B"%string ∧
    (∀ j, (j < q)%nat → new_df_title twin_catalog !! j ≠ Some "B"%string) ∧
    similarity twin_catalog !! q = Some distances ∧
    recommend twin_catalog "B" 5 = Some titles ∧
    Forall2 (λ i t, new_df_title twin_catalog !! i = Some t)
            (ranked_indices distances 5) titles.
Proof.
  apply (recommend_known_title twin_catalog "B" 5).
  - split; [done | by repeat constructor].
  - right. by left.
Defined.

(** X6.  When the similarity of the query item to itself is strictly above
    that of every item before it and not below that of any item, the ranked
    list holds other items only: the query item is not in it, for every
    [top_k]. *)
Theorem ranked_omits_dominant_query
    (distances : list Q) (top_k : Z) (q : nat) (vq : Q) :
  dominant distances q vq →
  ∀ i, i ∈ ranked_indices distances top_k →
       i ≠ q ∧ (i < length distances)%nat.
Proof.
  intros Hdom i Hi. split.
  - intros ->. by eapply RankerSpec.ranked_excludes_dominant.
  - apply list_elem_of_lookup in Hi as [p Hp].
    apply ranked_lookup in Hp as (v & Hv & _). by eapply lookup_lt_Some.
Qed.

Lemma ranked_omits_dominant_query_witness :
  2%nat ≠ 0%nat ∧ (2 < length [1; 4#5; 4#5]%Q)%nat.
Proof.
  apply (ranked_omits_dominant_query [1; 4#5; 4#5]%Q 5 0 1%Q).
  - split_and!; [done | | constructor].
    repeat constructor; by vm_compute.
  - assert (ranked_indices [1; 4#5; 4#5]%Q 5 = [1%nat; 2%nat]) as ->
      by by vm_compute.
    right. left.
Defined.

End RankerMore.

(** ** Further properties of Precision@K, Recall@K, MRR and coverage *)

Module SetMetricsMore.
Import Py PyFacts Metrics Notions.

Lemma size_list_to_set_le (l : list Z) :
  (size (list_to_set l : gset Z) ≤ length l)%nat.
Proof.
  induction l as [|x l IH]; simpl; [vm_compute; lia |].
  destruct (decide (x ∈ (list_to_set l : gset Z))) as [Hin | Hnot].
  - replace ({[x]} ∪ list_to_set l : gset Z) with (list_to_set l : gset Z);
      [lia |].
    apply leibniz_equiv. intros y. rewrite elem_of_union, elem_of_singleton.
    split; [by right | by intros [-> | ?]].
  - rewrite size_union by (apply disjoint_singleton_l; done).
    rewrite size_singleton. lia.
Qed.

Lemma Qz_pos (z : Z) : 0 < z → (0 < Qz z)%Q.
Proof. intros H. unfold Qz. change 0%Q with (inject_Z 0). by rewrite <- Zlt_Qlt. Qed.

Lemma Qcard_nonneg (s : gset Z) : (0 <= Qcard s)%Q.
Proof.
  unfold Qcard. change 0%Q with (inject_Z 0). rewrite <- Zle_Qle. lia.
Qed.

Lemma Qcard_le (s t : gset Z) : s ⊆ t → (Qcard s <= Qcard t)%Q.
Proof.
  intros H. unfold Qcard. rewrite <- Zle_Qle. by apply inj_le, subseteq_size.
Qed.

Lemma Qdiv_unit (a b : Q) :
  (0 <= a)%Q → (a <= b)%Q → (0 < b)%Q → (0 <= a / b)%Q ∧ (a / b <= 1)%Q.
Proof.
  intros Ha Hab Hb. split.
  - apply Qle_shift_div_l; [done |]. by rewrite Qmult_0_l.
  - apply Qle_shift_div_r; [done |]. by rewrite Qmult_1_l.
Qed.

Lemma or_default_nonneg (k : option Z) (n : nat) :
  (∀ z, k = Some z → 0 ≤ z) → 0 ≤ or_default k (Z.of_nat n).
Proof.
  intros Hk. destruct k as [z|]; simpl; [| lia].
  specialize (Hk z eq_refl). destruct (z =? 0); lia.
Qed.

(** X7.  For [k] absent or [k ≥ 0], Precision@K is a fraction: it lies
    between 0 and 1, whatever the lists hold (repeated items included). *)
Theorem precision_at_k_unit (recommended relevant : list Z) (k : option Z) :
  (∀ z, k = Some z → 0 ≤ z) →
  (0 <= precision_at_k recommended relevant k)%Q ∧
  (precision_at_k recommended relevant k <= 1)%Q.
Proof.
  intros Hk. apply (or_default_nonneg _ (length recommended)) in Hk.
  unfold precision_at_k.
  destruct (Z.eqb_spec (or_default k (Z.of_nat (length recommended))) 0) as [_ | Hne];
    [split; by vm_compute |].
  apply Qdiv_unit; [apply Qcard_nonneg | | apply Qz_pos; lia].
  unfold Qcard, Qz. rewrite <- Zle_Qle.
  set (rec_k := prefix recommended (or_default k (Z.of_nat (length recommended)))).
  assert (size ((list_to_set rec_k : gset Z) ∩ list_to_set relevant)
          ≤ size (list_to_set rec_k : gset Z))%nat as H1
    by apply subseteq_size, intersection_subseteq_l.
  pose proof (size_list_to_set_le rec_k) as H2.
  assert (length rec_k ≤ Z.to_nat (or_default k (Z.of_nat (length recommended))))%nat
    as H3 by (unfold rec_k; rewrite prefix_nonneg, length_take by done; lia).
  lia.
Qed.

Lemma precision_at_k_unit_witness :
  let p := precision_at_k [1; 2; 2; 4] [2; 4; 9] (Some 3) in
  (0 <= p)%Q ∧ (p <= 1)%Q.
Proof.
  apply (precision_at_k_unit [1; 2; 2; 4] [2; 4; 9] (Some 3)).
  intros z Hz. simplify_eq. lia.
Defined.

(** X8.  Recall@K lies between 0 and 1 for every [k], negative ones
    included, and every pair of lists. *)
Theorem recall_at_k_unit (recommended relevant : list Z) (k : option Z) :
  (0 <= recall_at_k recommended relevant k)%Q ∧
  (recall_at_k recommended relevant k <= 1)%Q.
Proof.
  unfold recall_at_k. case_bool_decide as Hrel; [split; by vm_compute |].
  apply Qdiv_unit; [apply Qcard_nonneg | apply Qcard_le, intersection_subseteq_r |].
  unfold Qcard. change 0%Q with (inject_Z 0). rewrite <- Zlt_Qlt.
  assert (size (list_to_set relevant : gset Z) ≠ 0%nat)
    by (by intros ?%size_empty_inv%leibniz_equiv).
  lia.
Qed.

(** X9.  When the relevant set has exactly [k > 0] distinct items,
    Precision@K and Recall@K are the same number. *)
Theorem precision_is_recall (recommended relevant : list Z) (k : Z) :
  0 < k →
  Z.of_nat (size (list_to_set relevant : gset Z)) = k →
  precision_at_k recommended relevant (Some k)
  = recall_at_k recommended relevant (Some k).
Proof.
  intros Hk Hsize. unfold precision_at_k, recall_at_k. simpl.
  destruct (Z.eqb_spec k 0) as [-> | _]; [lia |].
  destruct (Z.eqb_spec k 0) as [-> | _]; [lia |].
  rewrite bool_decide_eq_false_2.
  - unfold Qcard at 3, Qz. by rewrite Hsize.
  - intros E. rewrite E, size_empty in Hsize. lia.
Qed.

Lemma precision_is_recall_witness :
  precision_at_k [1; 2; 3; 4] [2; 4; 9] (Some 3)
  = recall_at_k [1; 2; 3; 4] [2; 4; 9] (Some 3).
Proof. by apply (precision_is_recall [1; 2; 3; 4] [2; 4; 9] 3). Defined.

(** X10.  Recall@K does not decrease when [k > 0] grows, and is largest
    when [k] is absent (the whole recommended list). *)
Theorem recall_at_k_monotone (recommended relevant : list Z) (k k' : Z) :
  0 < k ≤ k' →
  (recall_at_k recommended relevant (Some k)
   <= recall_at_k recommended relevant (Some k'))%Q ∧
  (recall_at_k recommended relevant (Some k')
   <= recall_at_k recommended relevant None)%Q.
Proof.
  intros Hk. unfold recall_at_k. simpl.
  destruct (Z.eqb_spec k 0) as [-> | _]; [lia |].
  destruct (Z.eqb_spec k' 0) as [-> | _]; [lia |].
  case_bool_decide as Hrel; [split; apply Qle_refl |].
  assert (0 <= / Qcard (list_to_set relevant))%Q as Hinv
    by apply Qinv_le_0_compat, Qcard_nonneg.
  rewrite !prefix_nonneg, Nat2Z.id, firstn_all by lia.
  split; (apply Qmult_le_compat_r; [apply Qcard_le | done]).
  - apply intersection_mono_r. intros x. rewrite !elem_of_list_to_set.
    intros Hx.
    replace (take (Z.to_nat k) recommended)
      with (take (Z.to_nat k) (take (Z.to_nat k') recommended)) in Hx
      by (rewrite take_take; f_equal; lia).
    eapply elem_of_sublist; [done | apply sublist_take].
  - apply intersection_mono_r. intros x. rewrite !elem_of_list_to_set.
    intros Hx. eapply elem_of_sublist; [done | apply sublist_take].
Qed.

Lemma recall_at_k_monotone_witness :
  let r1 := recall_at_k [1; 2; 3; 4] [2; 4; 9] (Some 2) in
  let r2 := recall_at_k [1; 2; 3; 4] [2; 4; 9] (Some 3) in
  let r := recall_at_k [1; 2; 3; 4] [2; 4; 9] None in
  (r1 <= r2)%Q ∧ (r2 <= r)%Q.
Proof. apply (recall_at_k_monotone [1; 2; 3; 4] [2; 4; 9] 2 3). lia. Defined.

Lemma Qinv_rank_pos (n : nat) : (0 < n)%nat → (0 < 1 / Qz (Z.of_nat n))%Q.
Proof.
  intros Hn. apply Qlt_shift_div_l; [apply Qz_pos; lia |].
  rewrite Qmult_0_l. by vm_compute.
Qed.

Lemma first_hit_spec (rel : gset Z) (l : list Z) (s : nat) :
  (0 < s)%nat →
  ((∀ x, x ∈ l → x ∉ rel) → first_hit rel (enumerate_from s l) = 0%Q) ∧
  ((first_hit rel (enumerate_from s l) == 0)%Q → ∀ x, x ∈ l → x ∉ rel) ∧
  (∀ p item, l !! p = Some item → item ∈ rel →
     (∀ j x, (j < p)%nat → l !! j = Some x → x ∉ rel) →
     first_hit rel (enumerate_from s l) = (1 / Qz (Z.of_nat (s + p)))%Q).
Proof.
  revert s. induction l as [|y l IH]; intros s Hs; simpl.
  - split_and!; [done | by intros _ x ?%elem_of_nil | by intros []].
  - destruct (IH (S s)) as (IH1 & IH2 & IH3); [lia |].
    case_bool_decide as Hy; split_and!.
    + intros Hno. exfalso. apply (Hno y); [by left | done].
    + intros H0. pose proof (Qinv_rank_pos s Hs) as Hpos.
      rewrite H0 in Hpos. by apply Qlt_irrefl in Hpos.
    + intros [|p] item Hp Hitem Hbefore; simpl in Hp.
      * by rewrite Nat.add_0_r.
      * exfalso. apply (Hbefore 0%nat y); [lia | done | done].
    + intros Hno. apply IH1. intros x Hx. apply Hno. by right.
    + intros H0 x Hx. apply elem_of_cons in Hx as [-> | Hx]; [done |].
      by apply IH2.
    + intros [|p] item Hp Hitem Hbefore; simpl in Hp.
      * by simplify_eq.
      * rewrite (IH3 p item Hp Hitem).
        -- by rewrite Nat.add_succ_r.
        -- intros j x Hj Hx. apply (Hbefore (S j) x); [lia | done].
Qed.

(** X11.  The mean reciprocal rank is 0 exactly when no recommended item
    is relevant. *)
Theorem mean_reciprocal_rank_zero (recommended relevant : list Z) :
  (mean_reciprocal_rank recommended relevant == 0)%Q ↔
  ∀ x, x ∈ recommended → x ∉ relevant.
Proof.
  unfold mean_reciprocal_rank.
  destruct (first_hit_spec (list_to_set relevant) recommended 1) as (H1 & H2 & _);
    [lia |].
  split.
  - intros H0 x Hx Hrel. apply (H2 H0 x Hx). by apply elem_of_list_to_set.
  - intros Hno. rewrite H1; [reflexivity |].
    intros x Hx Hrel. apply (Hno x Hx). by apply elem_of_list_to_set in Hrel.
Qed.

(** X12.  When the first relevant item of the recommended list stands at
    position p (counted from 0), the mean reciprocal rank is 1/(p+1);
    relevant items further down do not count. *)
Theorem mean_reciprocal_rank_first (recommended relevant : list Z)
    (p : nat) (item : Z) :
  recommended !! p = Some item →
  item ∈ relevant →
  (∀ j x, (j < p)%nat → recommended !! j = Some x → x ∉ relevant) →
  mean_reciprocal_rank recommended relevant = (1 / Qz (Z.of_nat (p + 1)))%Q.
Proof.
  intros Hp Hitem Hbefore. unfold mean_reciprocal_rank.
  destruct (first_hit_spec (list_to_set relevant) recommended 1) as (_ & _ & H3);
    [lia |].
  rewrite (H3 p item Hp).
  - by rewrite Nat.add_comm.
  - by apply elem_of_list_to_set.
  - intros j x Hj Hx Hrel. apply (Hbefore j x Hj Hx).
    by apply elem_of_list_to_set in Hrel.
Qed.

Lemma mean_reciprocal_rank_first_witness :
  mean_reciprocal_rank [5; 2; 1; 2] [1; 7] = (1 / Qz (Z.of_nat (2 + 1)))%Q.
Proof.
  apply (mean_reciprocal_rank_first [5; 2; 1; 2] [1; 7] 2 1).
  - reflexivity.
  - by left.
  - intros [|[|j]] x Hj Hx Hrel; simpl in Hx; simplify_eq; try lia;
      repeat (apply elem_of_cons in Hrel as [Hrel | Hrel]; [lia |]);
      by apply elem_of_nil in Hrel.
Defined.

(** X13.  When every recommended item is an index of the catalog
    (0 ≤ item < catalog_size), the catalog coverage lies between 0 and 1. *)
Theorem catalog_coverage_unit
    (all_recommendations : list (list Z)) (catalog_size : Z) :
  (∀ rec_list x, rec_list ∈ all_recommendations → x ∈ rec_list →
                 0 ≤ x < catalog_size) →
  (0 <= catalog_coverage all_recommendations catalog_size)%Q ∧
  (catalog_coverage all_recommendations catalog_size <= 1)%Q.
Proof.
  intros Hrange. unfold catalog_coverage.
  destruct (Z.eqb_spec catalog_size 0) as [_ | Hne]; [split; by vm_compute |].
  set (catalog := list_to_set (Z.of_nat <$> seq 0 (Z.to_nat catalog_size)) : gset Z).
  assert (covered_items all_recommendations ⊆ catalog) as Hsub.
  { intros x Hx. apply SetMetricsSpec.elem_of_covered_items in Hx as (l & Hl & Hx).
    specialize (Hrange l x Hl Hx). unfold catalog.
    apply elem_of_list_to_set, list_elem_of_fmap.
    exists (Z.to_nat x). split; [lia |]. apply elem_of_seq. lia. }
  destruct (decide (0 < catalog_size)) as [Hpos | Hneg].
  - apply Qdiv_unit; [apply Qcard_nonneg | | by apply Qz_pos].
    unfold Qcard, Qz. rewrite <- Zle_Qle.
    pose proof (size_list_to_set_le (Z.of_nat <$> seq 0 (Z.to_nat catalog_size))) as Hs.
    rewrite length_fmap, length_seq in Hs. fold catalog in Hs.
    apply subseteq_size in Hsub. lia.
  - assert (covered_items all_recommendations = ∅) as ->.
    { apply leibniz_equiv. intros x. split; [| by intros ?%not_elem_of_empty].
      intros Hx. apply SetMetricsSpec.elem_of_covered_items in Hx as (l & Hl & Hx).
      specialize (Hrange l x Hl Hx). lia. }
    unfold Qcard. rewrite size_empty. simpl. unfold Qdiv.
    rewrite Qmult_0_l. split; by vm_compute.
Qed.

Lemma catalog_coverage_unit_witness :
  let c := catalog_coverage [[1; 2]; [2; 3]] 10 in (0 <= c)%Q ∧ (c <= 1)%Q.
Proof.
  apply (catalog_coverage_unit [[1; 2]; [2; 3]] 10).
  intros l x Hl Hx.
  repeat (apply elem_of_cons in Hl as [-> | Hl];
          [repeat (apply elem_of_cons in Hx as [-> | Hx]; [lia |]);
           by apply elem_of_nil in Hx |]).
  by apply elem_of_nil in Hl.
Defined.

(** X14.  The catalog coverage depends only on which items are recommended
    at all: two batches of lists that recommend the same items, in whatever
    order, grouping and repetition, have the same coverage. *)
Theorem catalog_coverage_same_items
    (lists lists' : list (list Z)) (catalog_size : Z) :
  (∀ x, (∃ l, l ∈ lists ∧ x ∈ l) ↔ (∃ l, l ∈ lists' ∧ x ∈ l)) →
  catalog_coverage lists catalog_size = catalog_coverage lists' catalog_size.
Proof.
  intros Hsame. unfold catalog_coverage.
  assert (covered_items lists = covered_items lists') as ->; [| done].
  apply leibniz_equiv. intros x.
  by rewrite !SetMetricsSpec.elem_of_covered_items.
Qed.

Lemma catalog_coverage_same_items_witness :
  catalog_coverage [[1; 2]; [2; 3]] 10 = catalog_coverage [[3; 2; 1; 1]] 10.
Proof.
  apply (catalog_coverage_same_items [[1; 2]; [2; 3]] [[3; 2; 1; 1]] 10).
  intros x. rewrite <- !SetMetricsSpec.elem_of_covered_items.
  by vm_compute.
Defined.

End SetMetricsMore.

(** ** Further properties of the relevance judge *)

Module JudgeMore.
Import Py TagNotions Metrics TagFacts Notions.

Lemma Qlen_nonneg (a : gset string) : (0 <= Qlen a)%Q.
Proof. unfold Qlen. change 0%Q with (inject_Z 0). rewrite <- Zle_Qle. lia. Qed.

Lemma Qlen_le (a b : gset string) : a ⊆ b → (Qlen a <= Qlen b)%Q.
Proof.
  intros H. unfold Qlen. rewrite <- Zle_Qle. by apply inj_le, subseteq_size.
Qed.

Lemma intersection_subseteq_union (a b : gset string) : a ∩ b ⊆ a ∪ b.
Proof.
  intros t [Ht _]%elem_of_intersection. apply elem_of_union. by left.
Qed.

Lemma union_nonempty (a b : gset string) : a ≠ ∅ → a ∪ b ≠ ∅.
Proof. intros Ha E. apply Ha. by apply empty_union_L in E as [? _]. Qed.

(** X15.  Both relevance judgements are symmetric in the two tag values,
    whatever the values are. *)
Theorem relevance_symmetric (x y : value) (min_common : Z) :
  relevance_score_tag_overlap x y = relevance_score_tag_overlap y x ∧
  relevance_by_tag_overlap x y min_common
  = relevance_by_tag_overlap y x min_common.
Proof.
  destruct (tag_set_total x) as [a Ha]. destruct (tag_set_total y) as [b Hb].
  unfold relevance_score_tag_overlap, relevance_by_tag_overlap.
  rewrite Ha, Hb. simpl.
  rewrite (comm_L (∩) b a), (comm_L (∪) b a), (orb_comm (bool_decide (b = ∅))).
  done.
Qed.

(** X16.  The graded relevance is a number between 0 and 1, for every
    pair of values. *)
Theorem relevance_score_unit (x y : value) :
  ∃ r, relevance_score_tag_overlap x y = Some r ∧ (0 <= r)%Q ∧ (r <= 1)%Q.
Proof.
  destruct (tag_set_total x) as [a Ha]. destruct (tag_set_total y) as [b Hb].
  unfold relevance_score_tag_overlap. rewrite Ha, Hb. simpl.
  case_bool_decide as Ea; simpl.
  { eexists. split; [done |]. split; by vm_compute. }
  case_bool_decide as Eb; simpl.
  { eexists. split; [done |]. split; by vm_compute. }
  eexists. split; [done |].
  assert (0 < Qlen (a ∪ b))%Q as Hpos by by apply JudgeSpec.Qlen_pos, union_nonempty.
  split.
  - apply Qle_shift_div_l; [done |]. rewrite Qmult_0_l. apply Qlen_nonneg.
  - apply Qle_shift_div_r; [done |]. rewrite Qmult_1_l.
    apply Qlen_le, intersection_subseteq_union.
Qed.

(** X17.  Lowering the threshold never turns a relevant pair into an
    irrelevant one. *)
Theorem relevance_by_tag_overlap_antitone (x y : value) (m m' : Z) :
  m ≤ m' →
  relevance_by_tag_overlap x y m' = Some true →
  relevance_by_tag_overlap x y m = Some true.
Proof.
  intros Hm. unfold relevance_by_tag_overlap.
  destruct (_tag_set x) as [a|]; simpl; [| done].
  destruct (_tag_set y) as [b|]; simpl; [| done].
  intros H. f_equal. simplify_eq. apply Z.leb_le. apply Z.leb_le in H. lia.
Qed.

Lemma relevance_by_tag_overlap_antitone_witness :
  relevance_by_tag_overlap (VStr "war drama epic") (VStr "epic war") 1
  = Some true.
Proof.
  apply (relevance_by_tag_overlap_antitone _ _ 1 2); [lia | by vm_compute].
Defined.

(** X18.  A pair that is relevant at a threshold of at least one common
    tag has a positive graded relevance. *)
Theorem relevant_has_positive_score (x y : value) (min_common : Z) :
  1 ≤ min_common →
  relevance_by_tag_overlap x y min_common = Some true →
  ∃ r, relevance_score_tag_overlap x y = Some r ∧ (0 < r)%Q.
Proof.
  intros Hm. unfold relevance_by_tag_overlap, relevance_score_tag_overlap.
  destruct (_tag_set x) as [a|]; simpl; [| done].
  destruct (_tag_set y) as [b|]; simpl; [| done].
  intros H. simplify_eq. apply Z.leb_le in H.
  assert (a ∩ b ≠ ∅) as Hab.
  { intros E. rewrite E, size_empty in H. lia. }
  assert (a ≠ ∅) as Ha by (intros ->; apply Hab; apply intersection_empty_l_L).
  assert (b ≠ ∅) as Hb by (intros ->; apply Hab; apply intersection_empty_r_L).
  rewrite !bool_decide_eq_false_2 by done. simpl.
  eexists. split; [done |].
  apply Qlt_shift_div_l.
  - by apply JudgeSpec.Qlen_pos, union_nonempty.
  - rewrite Qmult_0_l. by apply JudgeSpec.Qlen_pos.
Qed.

Lemma relevant_has_positive_score_witness :
  ∃ r, relevance_score_tag_overlap (VStr "war drama epic") (VStr "epic war")
       = Some r ∧ (0 < r)%Q.
Proof.
  apply (relevant_has_positive_score _ _ 2); [lia | by vm_compute].
Defined.

(** X19.  The graded relevance is 1 exactly when the two values have the
    same tag set and that set is not empty. *)
Theorem relevance_score_one (x y : value) (a b : gset string) :
  _tag_set x = Some a →
  _tag_set y = Some b →
  (∃ r, relevance_score_tag_overlap x y = Some r ∧ (r == 1)%Q) ↔
  a = b ∧ a ≠ ∅.
Proof.
  intros Ha Hb. unfold relevance_score_tag_overlap. rewrite Ha, Hb. simpl.
  split.
  - intros (r & Hr & H1).
    case_bool_decide as Ea; simpl in Hr; [simplify_eq; by vm_compute in H1 |].
    case_bool_decide as Eb; simpl in Hr; [simplify_eq; by vm_compute in H1 |].
    simplify_eq. split; [| done].
    assert (0 < Qlen (a ∪ b))%Q as Hpos by by apply JudgeSpec.Qlen_pos, union_nonempty.
    assert (Qlen (a ∩ b) == Qlen (a ∪ b))%Q as Heq.
    { rewrite <- (Qmult_1_l (Qlen (a ∪ b))), <- H1. field.
      intros E. rewrite E in Hpos. by apply Qlt_irrefl in Hpos. }
    unfold Qlen, Qeq in Heq. simpl in Heq.
    assert (a ∩ b = a ∪ b) as Hsets.
    { apply set_subseteq_size_eq; [apply intersection_subseteq_union | lia]. }
    apply leibniz_equiv_iff. intros t. split; intros Ht.
    + assert (t ∈ a ∩ b) as Hin
        by (rewrite Hsets; apply elem_of_union; by left).
      by apply elem_of_intersection in Hin as [_ ?].
    + assert (t ∈ a ∩ b) as Hin
        by (rewrite Hsets; apply elem_of_union; by right).
      by apply elem_of_intersection in Hin as [? _].
  - intros [<- Hne]. rewrite !bool_decide_eq_false_2 by done. simpl.
    eexists. split; [done |].
    rewrite intersection_idemp_L, union_idemp_L.
    apply JudgeSpec.Qlen_pos in Hne. field. intros E. rewrite E in Hne.
    by apply Qlt_irrefl in Hne.
Qed.

Lemma relevance_score_one_witness :
  (∃ r, relevance_score_tag_overlap (VStr "war drama") (VStr "Drama  WAR war")
        = Some r ∧ (r == 1)%Q) ↔
  ({["war"]} ∪ {["drama"]} : gset string) = {["war"]} ∪ {["drama"]} ∧
  ({["war"]} ∪ {["drama"]} : gset string) ≠ ∅.
Proof.
  by apply (relevance_score_one (VStr "war drama") (VStr "Drama  WAR war")).
Defined.

Lemma isspace_lower_char (c : ascii) : isspace (lower_char c) = isspace c.
Proof. destruct c as [[] [] [] [] [] [] [] []]; by vm_compute. Qed.

Lemma lower_char_idemp (c : ascii) : lower_char (lower_char c) = lower_char c.
Proof. destruct c as [[] [] [] [] [] [] [] []]; by vm_compute. Qed.

Lemma lower_idemp (s : string) : lower (lower s) = lower s.
Proof.
  induction s as [|c s IH]; simpl; [done |]. by rewrite lower_char_idemp, IH.
Qed.

Lemma lstrip_lower (s : string) : lstrip (lower s) = lower (lstrip s).
Proof.
  induction s as [|c s IH]; simpl; [done |].
  rewrite isspace_lower_char. by destruct (isspace c).
Qed.

Lemma rstrip_lower (s : string) : rstrip (lower s) = lower (rstrip s).
Proof.
  induction s as [|c s IH]; simpl; [done |].
  rewrite IH, isspace_lower_char.
  destruct (rstrip s); simpl; [by destruct (isspace c) | done].
Qed.

Lemma strip_lower (s : string) : strip (lower s) = lower (strip s).
Proof. unfold strip. by rewrite lstrip_lower, rstrip_lower. Qed.

Lemma str_bool_lower (s : string) : str_bool (lower s) = str_bool s.
Proof. by destruct s. Qed.

Lemma lower_string_of_list (l : list ascii) :
  lower (string_of_list_ascii l) = string_of_list_ascii (lower_char <$> l).
Proof. induction l as [|c l IH]; simpl; [done |]. by rewrite IH. Qed.

Lemma fmap_rev_list {X Y} (f : X → Y) (l : list X) :
  f <$> rev l = rev (f <$> l).
Proof.
  induction l as [|x l IH]; simpl; [done |]. by rewrite fmap_app, IH.
Qed.

Lemma flush_lower (cur : list ascii) :
  match lower_char <$> cur with
  | [] => []
  | _ => [string_of_list_ascii (rev (lower_char <$> cur))]
  end
  = lower <$> match cur with
              | [] => []
              | _ => [string_of_list_ascii (rev cur)]
              end.
Proof.
  destruct cur as [|d cur]; [done |].
  rewrite fmap_cons. cbn [fmap list_fmap]. f_equal.
  by rewrite lower_string_of_list, fmap_rev_list, fmap_cons.
Qed.

Lemma split_aux_lower (cur : list ascii) (s : string) :
  split_aux (lower_char <$> cur) (lower s) = lower <$> split_aux cur s.
Proof.
  revert cur. induction s as [|c s IH]; intros cur.
  - cbn [split_aux lower]. apply flush_lower.
  - cbn [split_aux lower]. rewrite isspace_lower_char. destruct (isspace c).
    + by rewrite fmap_app, <- (IH []), flush_lower.
    + apply (IH (c :: cur)).
Qed.

Lemma split_lower (s : string) : split (lower s) = lower <$> split s.
Proof. apply (split_aux_lower [] s). Qed.

(** X20.  Tags are compared without regard to letter case: a tag string
    and its lower-case form have the same tag set, so both relevance
    judgements give the same result for them. *)
Theorem tag_set_ignores_case (tags : string) (y : value) (min_common : Z) :
  _tag_set (VStr (lower tags)) = _tag_set (VStr tags) ∧
  relevance_score_tag_overlap (VStr (lower tags)) y
  = relevance_score_tag_overlap (VStr tags) y ∧
  relevance_by_tag_overlap (VStr (lower tags)) y min_common
  = relevance_by_tag_overlap (VStr tags) y min_common.
Proof.
  assert (_tag_set (VStr (lower tags)) = _tag_set (VStr tags)) as Heq.
  { unfold _tag_set. simpl. rewrite strip_lower, str_bool_lower.
    destruct (str_bool (strip tags)); simpl; [| done].
    f_equal. f_equal. rewrite split_lower.
    induction (split tags) as [|t ts IH]; [done |].
    rewrite fmap_cons. rewrite !filter_cons.
    rewrite strip_lower, str_bool_lower.
    destruct (decide (str_bool (strip t) = true)); [| done].
    rewrite !fmap_cons, IH. by rewrite strip_lower, lower_idemp. }
  unfold relevance_score_tag_overlap, relevance_by_tag_overlap.
  by rewrite Heq.
Qed.

End JudgeMore.

(** ** Further properties of DCG@K and NDCG@K *)

Module NdcgMore.
Import Py PyFacts Metrics DesignDoc NdcgSpec Notions.

Lemma log2_pos (i : nat) : (0 < log2 (INR (i + 2)))%R.
Proof.
  unfold log2. assert (0 < ln 2)%R as H2.
  { rewrite <- ln_1. apply ln_increasing; Lra.lra. }
  assert (1 < INR (i + 2))%R as Hi.
  { rewrite plus_INR. pose proof (pos_INR i). simpl. Lra.lra. }
  assert (0 < ln (INR (i + 2)))%R as Hln.
  { rewrite <- ln_1. apply ln_increasing; Lra.lra. }
  by apply Rdiv_lt_0_compat.
Qed.

Lemma nth_nonneg (grades : list R) (i : nat) :
  Forall (λ g, (0 <= g)%R) grades → (0 <= nth i grades 0)%R.
Proof.
  intros H. revert i. induction H as [|g l Hg _ IH]; intros [|i]; simpl;
    try Lra.lra; try done.
Qed.

Lemma term_nonneg (grades : list R) (i : nat) :
  Forall (λ g, (0 <= g)%R) grades →
  (0 <= nth i grades 0 / log2 (INR (i + 2)))%R.
Proof.
  intros H. apply Rmult_le_pos; [by apply nth_nonneg |].
  apply Rlt_le, Rinv_0_lt_compat, log2_pos.
Qed.

Lemma sigma_monotone (f : nat → R) (n n' : nat) :
  (∀ i, (0 <= f i)%R) → (n ≤ n')%nat → (sigma n f <= sigma n' f)%R.
Proof.
  intros Hf Hn. induction Hn as [|m Hm IH]; [Lra.lra |].
  simpl. specialize (Hf m). Lra.lra.
Qed.

Lemma sigma_nonneg (f : nat → R) (n : nat) :
  (∀ i, (0 <= f i)%R) → (0 <= sigma n f)%R.
Proof. intros Hf. apply (sigma_monotone f 0 n Hf). lia. Qed.

Lemma dcg_at_k_sigma (grades : list R) (k : Z) :
  dcg_at_k grades k
  = sigma (length (prefix grades k))
          (λ i, nth i (prefix grades k) 0 / log2 (INR (i + 2)))%R.
Proof.
  unfold dcg_at_k. rewrite <- sumR_enumerate.
  by destruct (prefix grades k).
Qed.

Lemma dcg_at_k_nonneg (grades : list R) (k : Z) :
  Forall (λ g, (0 <= g)%R) grades → (0 <= dcg_at_k grades k)%R.
Proof.
  intros Hg. rewrite dcg_at_k_sigma. apply sigma_nonneg. intros i.
  apply term_nonneg. unfold prefix. by apply Forall_take.
Qed.

(** X21.  For grades that are not negative, DCG@K is not negative for
    every [k], and it does not decrease when [k ≥ 0] grows. *)
Theorem dcg_at_k_monotone (grades : list R) (k k' : Z) :
  Forall (λ g, (0 <= g)%R) grades →
  (0 <= dcg_at_k grades k)%R ∧
  (0 ≤ k ≤ k' → (dcg_at_k grades k <= dcg_at_k grades k')%R).
Proof.
  intros Hg. split.
  - by apply dcg_at_k_nonneg.
  - intros Hk. rewrite !dcg_at_k_formula by lia. unfold dcgAtK.
    apply sigma_monotone; [intros i; by apply term_nonneg | lia].
Qed.

Lemma dcg_at_k_monotone_witness :
  (0 <= dcg_at_k [1; 0; 1]%R 2)%R ∧
  (dcg_at_k [1; 0; 1]%R 2 <= dcg_at_k [1; 0; 1]%R 3)%R.
Proof.
  destruct (dcg_at_k_monotone [1; 0; 1]%R 2 3) as [H0 Hm].
  - repeat constructor; Lra.lra.
  - split; [done | apply Hm; lia].
Defined.

(** X22.  For a relevance function without negative grades, NDCG@K is not
    negative, for every recommended list and every [k]. *)
Theorem ndcg_at_k_nonneg
    (recommended : list Z) (relevance_fn : Z → R) (k : option Z) :
  nonneg_grades relevance_fn →
  (0 <= ndcg_at_k recommended relevance_fn k)%R.
Proof.
  intros Hg. unfold ndcg_at_k.
  set (kk := or_default k (Z.of_nat (length recommended))).
  set (idcg := dcg_at_k _ kk). unfold Rle_bool.
  destruct (Rle_dec idcg 0) as [_ | Hpos]; [Lra.lra |].
  apply Rmult_le_pos.
  - apply dcg_at_k_nonneg. apply Forall_fmap, Forall_forall.
    intros i _. apply Hg.
  - apply Rlt_le, Rinv_0_lt_compat. Lra.lra.
Qed.

Lemma ndcg_at_k_nonneg_witness :
  Rle 0 (ndcg_at_k [1; 0] only_item_1 (Some 1)).
Proof.
  apply (ndcg_at_k_nonneg [1; 0] only_item_1 (Some 1)).
  intros i. unfold only_item_1. destruct (i =? 1); Lra.lra.
Defined.

Lemma descending_unique (l1 l2 : list R) :
  descending l1 → descending l2 → l1 ≡ₚ l2 → l1 = l2.
Proof.
  assert (AntiSymm (=) (λ a b : R, (b <= a)%R)) as Hanti.
  { intros a b Hab Hba. Lra.lra. }
  apply (StronglySorted_unique (λ a b : R, (b <= a)%R)).
Qed.

Lemma dcg_at_k_prefix (grades : list R) (k : Z) :
  0 ≤ k → dcg_at_k (prefix grades k) k = dcg_at_k grades k.
Proof. intros Hk. unfold dcg_at_k. by rewrite prefix_idemp. Qed.

(** X23.  When the recommended list ranks the items 0 .. n-1 (each once)
    in descending order of relevance and its DCG is positive, NDCG@K is 1,
    for [k] absent or [k ≥ 0]. *)
Theorem ndcg_at_k_ideal_ranking
    (recommended : list Z) (relevance_fn : Z → R) (k : option Z) :
  (∀ z, k = Some z → 0 ≤ z) →
  recommended ≡ₚ Z.of_nat <$> seq 0 (length recommended) →
  descending (relevance_fn <$> recommended) →
  (0 < dcg_at_k (relevance_fn <$> recommended)
                (or_default k (Z.of_nat (length recommended))))%R →
  ndcg_at_k recommended relevance_fn k = 1%R.
Proof.
  intros Hk Hperm Hdesc Hpos.
  set (kk := or_default k (Z.of_nat (length recommended))) in *.
  assert (0 ≤ kk) as Hkk.
  { unfold kk. destruct k as [z|]; simpl; [| lia].
    specialize (Hk z eq_refl). destruct (z =? 0); lia. }
  assert (sorted_reverse Rle_bool id
            ((λ i, relevance_fn (Z.of_nat i)) <$> range (length recommended))
          = relevance_fn <$> recommended) as Hideal.
  { apply descending_unique; [apply sorted_reverse_descending | done |].
    rewrite sorted_reverse_Permutation. unfold range, range2.
    rewrite Nat.sub_0_r.
    change (λ i : nat, relevance_fn (Z.of_nat i)) with (relevance_fn ∘ Z.of_nat).
    rewrite list_fmap_compose. by apply fmap_Permutation. }
  unfold ndcg_at_k. fold kk. rewrite Hideal.
  assert (relevance_fn <$> prefix recommended kk
          = prefix (relevance_fn <$> recommended) kk) as ->.
  { unfold prefix. by rewrite fmap_take, length_fmap. }
  rewrite dcg_at_k_prefix by done.
  rewrite Rle_bool_false by done. field. Lra.lra.
Qed.

Lemma ndcg_at_k_ideal_ranking_witness :
  ndcg_at_k [1; 0] only_item_1 (Some 1) = 1%R.
Proof.
  apply (ndcg_at_k_ideal_ranking [1; 0] only_item_1 (Some 1)).
  - intros z Hz. simplify_eq. lia.
  - apply Permutation_swap.
  - unfold descending, only_item_1. simpl.
    repeat constructor. Lra.lra.
  - unfold dcg_at_k, sumR, only_item_1. simpl.
    change (1 + 1)%R with (INR 2). rewrite log2_2. Lra.lra.
Defined.

End NdcgMore.

(** ** Further properties of the diversity measures *)

Module DiversityMore.
Import Py PyFacts Metrics DiversityNotions DiversitySpec Notions.

Lemma np_axis_invalid (len : nat) (i : Z) :
  ¬ (- Z.of_nat len ≤ i < Z.of_nat len) → np_axis len i = None.
Proof.
  intros H. unfold np_axis.
  destruct (Z.leb_spec 0 i), (Z.ltb_spec i (Z.of_nat len)),
    (Z.leb_spec (- Z.of_nat len) i), (Z.ltb_spec i 0); simpl; try done; lia.
Qed.

Lemma np_get_invalid (M : list (list Q)) (N : nat) (ii jj : Z) :
  square M N →
  ¬ (- Z.of_nat N ≤ ii < Z.of_nat N) ∨ ¬ (- Z.of_nat N ≤ jj < Z.of_nat N) →
  np_get M ii jj = None.
Proof.
  intros [Hlen Hrows] Hbad. unfold np_get. rewrite Hlen.
  destruct (np_axis N ii) as [r|] eqn:Hr; simpl; [| done].
  destruct (M !! r) as [row|] eqn:Hrow; simpl; [| done].
  rewrite Forall_lookup in Hrows. rewrite (Hrows _ _ Hrow).
  destruct Hbad as [Hi | Hj].
  - by rewrite np_axis_invalid in Hr.
  - by rewrite np_axis_invalid.
Qed.

Lemma for_each_fails {S X} (xs : list X) (body : X → S → option S) (s : S) (x : X) :
  x ∈ xs → (∀ t, body x t = None) → for_each xs body s = None.
Proof.
  intros Hin Hx. revert s. induction xs as [|y xs IH]; intros s;
    [by apply elem_of_nil in Hin |].
  simpl. apply elem_of_cons in Hin as [<- | Hin]; [by rewrite Hx |].
  destruct (body y s); simpl; [by apply IH | done].
Qed.

Lemma pair_step_invalid (M : list (list Q)) (N : nat) (l : list Z)
    (i j : nat) (ii jj : Z) (s : acc) :
  square M N → l !! i = Some ii → l !! j = Some jj →
  ¬ (- Z.of_nat N ≤ ii < Z.of_nat N) ∨ ¬ (- Z.of_nat N ≤ jj < Z.of_nat N) →
  pair_step M l i j s = None.
Proof.
  intros HM Hi Hj Hbad. unfold pair_step. rewrite Hi, Hj. simpl.
  by rewrite (np_get_invalid M N ii jj HM Hbad).
Qed.

(** X24.  For an N×N matrix and a list of at least two indices,
    [intra_list_diversity] returns a value exactly when every index is one
    that numpy accepts (-N ≤ i < N); a single index out of range makes it
    raise [IndexError]. *)
Theorem diversity_raises_iff (M : list (list Q)) (N : nat) (l : list Z) :
  square M N →
  (2 ≤ length l)%nat →
  is_Some (intra_list_diversity M l) ↔ valid_indices N l.
Proof.
  intros HM Hlen. split; [| by apply diversity_returns].
  intros Hsome. apply dec_stable. intros Hbad.
  apply not_Forall_Exists in Hbad; [| intros x; apply _].
  apply Exists_exists in Hbad as (x & Hx & Hinv).
  apply list_elem_of_lookup in Hx as [p Hp].
  assert (intra_list_diversity M l = None) as Hnone; [| rewrite Hnone in Hsome; by destruct Hsome].
  unfold intra_list_diversity.
  destruct (Nat.ltb_spec (length l) 2); [lia |].
  destruct (lookup_lt_is_Some_2 l 0) as [x0 H0]; [lia |].
  destruct (lookup_lt_is_Some_2 l 1) as [x1 H1]; [lia |].
  rewrite (for_each_fails _ _ _ 0%nat); [done | |].
  - unfold range, range2. apply elem_of_seq. lia.
  - intros t. destruct p as [|p].
    + apply (for_each_fails _ _ _ 1%nat).
      * unfold range2. apply elem_of_seq. lia.
      * intros u. eapply pair_step_invalid; [done.. |]. left. by simplify_eq.
    + apply (for_each_fails _ _ _ (S p)).
      * unfold range2. apply elem_of_seq. apply lookup_lt_Some in Hp. lia.
      * intros u. eapply pair_step_invalid; [done.. |]. by right.
Qed.

Lemma diversity_raises_iff_witness :
  is_Some (intra_list_diversity [[1; 1#2]; [1#2; 1]]%Q [0; 2]) ↔
  valid_indices 2 [0; 2].
Proof.
  apply (diversity_raises_iff [[1; 1#2]; [1#2; 1]]%Q 2 [0; 2]).
  - split; [done | by repeat constructor].
  - simpl. lia.
Defined.

Lemma average_diversity_alt (M : list (list Q)) (lists : list (list Z)) :
  average_diversity M lists
  = divs ← mapM (intra_list_diversity M)
                (filter (λ rec, (2 <= length rec)%nat) lists);
    Some (match divs with [] => 0%Q | _ => np_mean divs end).
Proof. by destruct lists. Qed.

(** X25.  Lists of fewer than two items have no part in the average
    diversity: adding or removing one, anywhere in the batch, leaves the
    result as it is. *)
Theorem average_diversity_skips_short
    (M : list (list Q)) (before after : list (list Z)) (short : list Z) :
  (length short < 2)%nat →
  average_diversity M (before ++ short :: after)
  = average_diversity M (before ++ after).
Proof.
  intros Hshort. rewrite !average_diversity_alt, !filter_app.
  by rewrite filter_cons_False by lia.
Qed.

Lemma average_diversity_skips_short_witness :
  average_diversity [[1; 1#2]; [1#2; 1]]%Q ([[0; 1]] ++ [7] :: [])
  = average_diversity [[1; 1#2]; [1#2; 1]]%Q ([[0; 1]] ++ []).
Proof.
  apply (average_diversity_skips_short [[1; 1#2]; [1#2; 1]]%Q [[0; 1]] [] [7]).
  simpl. lia.
Defined.

Lemma np_get_entry (M : list (list Q)) (P : Q → Prop) (ii jj : Z) (sim : Q) :
  Forall (Forall P) M → np_get M ii jj = Some sim → P sim.
Proof.
  intros HM H. unfold np_get in H.
  destruct (np_axis (length M) ii) as [r|]; simpl in H; [| done].
  destruct (M !! r) as [row|] eqn:Hrow; simpl in H; [| done].
  destruct (np_axis (length row) jj) as [c|]; simpl in H; [| done].
  rewrite Forall_lookup in HM. specialize (HM _ _ Hrow).
  rewrite Forall_lookup in HM. by eapply HM.
Qed.

Lemma for_each_cons_inv {S X} (x : X) (xs : list X)
    (body : X → S → option S) (s s' : S) :
  for_each (x :: xs) body s = Some s' →
  ∃ t, body x s = Some t ∧ for_each xs body t = Some s'.
Proof.
  simpl. destruct (body x s) as [t|]; simpl; [| done]. intros H. by exists t.
Qed.

Lemma pair_step_count (M : list (list Q)) (l : list Z) (i j : nat) (s s' : acc) :
  pair_step M l i j s = Some s' → count s' = (count s + 1)%nat.
Proof.
  unfold pair_step. intros H.
  destruct (l !! i); simpl in H; [| done].
  destruct (l !! j); simpl in H; [| done].
  destruct (np_get M _ _); simpl in H; [| done]. by simplify_eq.
Qed.

Lemma pair_step_constant (M : list (list Q)) (c : Q) (l : list Z)
    (i j : nat) (s s' : acc) :
  Forall (Forall (λ x, (x == c)%Q)) M →
  (total s == Qz (Z.of_nat (count s)) * (1 - c))%Q →
  pair_step M l i j s = Some s' →
  (total s' == Qz (Z.of_nat (count s')) * (1 - c))%Q.
Proof.
  intros HM Hs H. unfold pair_step in H.
  destruct (l !! i) as [ii|]; simpl in H; [| done].
  destruct (l !! j) as [jj|]; simpl in H; [| done].
  destruct (np_get M ii jj) as [sim|] eqn:E; simpl in H; [| done].
  simplify_eq. simpl. rewrite Qz_succ, Hs.
  pose proof (np_get_entry M _ ii jj sim HM E) as Hsim. simpl in Hsim.
  rewrite Hsim. field.
Qed.

(** X26.  When every entry of the similarity matrix equals the same value
    c, the diversity of a list of at least two indices is 1 - c; for
    identical items (c = 1) it is 0. *)
Theorem diversity_of_constant_matrix
    (M : list (list Q)) (c : Q) (l : list Z) (v : Q) :
  Forall (Forall (λ x, (x == c)%Q)) M →
  (2 ≤ length l)%nat →
  intra_list_diversity M l = Some v →
  (v == 1 - c)%Q.
Proof.
  intros HM Hlen. unfold intra_list_diversity.
  destruct (Nat.ltb_spec (length l) 2); [lia |].
  destruct (for_each _ _ _) as [s|] eqn:E; simpl; [| done].
  intros ?; simplify_eq.
  set (inv := λ t : acc, (total t == Qz (Z.of_nat (count t)) * (1 - c))%Q).
  assert (inv s) as Hinv.
  { revert E. apply (for_each_invariant inv).
    - intros i t t' Ht. apply (for_each_invariant inv); [| done].
      intros j u u'. by apply pair_step_constant.
    - unfold inv. simpl. change (Qz (Z.of_nat 0)) with 0%Q. ring. }
  assert (1 ≤ count s)%nat as Hcount.
  { destruct (length l) as [|[|n]] eqn:El; [lia | lia |].
    change (range (S (S n))) with (0%nat :: seq 1 (S n)) in E.
    apply for_each_cons_inv in E as (t & E0 & Erest).
    change (range2 (0 + 1) (S (S n))) with (1%nat :: seq 2 n) in E0.
    apply for_each_cons_inv in E0 as (s1 & E1 & E2).
    apply pair_step_count in E1. simpl in E1.
    assert (1 ≤ count t)%nat as Ht.
    { revert E2. apply (for_each_invariant (λ u, 1 ≤ count u)%nat); [| lia].
      intros j u u' Hu Hstep. apply pair_step_count in Hstep. lia. }
    revert Erest. apply (for_each_invariant (λ u, 1 ≤ count u)%nat); [| done].
    intros i u u' Hu. apply (for_each_invariant (λ w, 1 ≤ count w)%nat); [| done].
    intros j w w' Hw Hstep. apply pair_step_count in Hstep. lia. }
  destruct (Nat.eqb_spec (count s) 0) as [? | _]; [lia |].
  unfold inv in Hinv. rewrite Hinv. field.
  assert (0 < Qz (Z.of_nat (count s)))%Q as Hpos.
  { unfold Qz. change 0%Q with (inject_Z 0). rewrite <- Zlt_Qlt. lia. }
  intros E0. rewrite E0 in Hpos. by apply Qlt_irrefl in Hpos.
Qed.

Lemma diversity_of_constant_matrix_witness :
  match intra_list_diversity [[1#3; 1#3]; [1#3; 1#3]]%Q [0; 1; -1] with
  | Some v => (v == 1 - (1#3))%Q
  | None => False
  end.
Proof.
  destruct (intra_list_diversity [[1#3; 1#3]; [1#3; 1#3]]%Q [0; 1; -1])
    as [v|] eqn:E; [| by vm_compute in E].
  apply (diversity_of_constant_matrix [[1#3; 1#3]; [1#3; 1#3]]%Q (1#3) [0; 1; -1] v).
  - repeat constructor; reflexivity.
  - simpl. lia.
  - exact E.
Defined.

End DiversityMore.

(** ** Properties of the tag normaliser of [_load_model] *)

Module LoaderFacts.
Import Py TagNotions Loader Notions TagFacts.

Lemma append_nil_r (s : string) : s +:+ EmptyString = s.
Proof.
  induction s as [|c s IH]; [done |].
  change (String c (s +:+ EmptyString) = String c s). by rewrite IH.
Qed.

Lemma rev_chars (t : string) :
  string_of_list_ascii (rev (rev (list_ascii_of_string t))) = t.
Proof. by rewrite rev_involutive, string_of_list_ascii_of_string. Qed.

(** Reading a run of characters that are not white space only extends the
    current token. *)
Lemma split_aux_run (cur : list ascii) (t rest : string) :
  whitespace_free t = true →
  split_aux cur (t +:+ rest)
  = split_aux (rev (list_ascii_of_string t) ++ cur) rest.
Proof.
  revert cur. induction t as [|c t IH]; intros cur Hfree; [done |].
  simpl in Hfree. apply andb_prop in Hfree as [Hc Hfree].
  apply negb_true_iff in Hc.
  change (String c t +:+ rest) with (String c (t +:+ rest)).
  cbn [split_aux]. rewrite Hc.
  rewrite IH by done. cbn [list_ascii_of_string rev].
  by rewrite <- app_assoc.
Qed.

Lemma split_word (t : string) : word t = true → split t = [t].
Proof.
  intros [Hne Hfree]%andb_prop. unfold split.
  replace (split_aux [] t) with (split_aux [] (t +:+ EmptyString))
    by (by rewrite append_nil_r).
  rewrite split_aux_run by done.
  rewrite app_nil_r. cbn [split_aux].
  destruct t as [|c t]; [done |].
  destruct (rev (list_ascii_of_string (String c t))) eqn:E.
  - apply (f_equal (@length ascii)) in E. rewrite length_rev in E. done.
  - by rewrite <- E, rev_chars.
Qed.

(** Splitting the joined words gives the words back. *)
Lemma split_join_space (ts : list string) :
  Forall (λ t, word t = true) ts → split (join_space ts) = ts.
Proof.
  induction 1 as [|t ts Ht Hts IH]; [done |].
  destruct ts as [|t' ts]; [by apply split_word |].
  change (join_space (t :: t' :: ts))
    with (t +:+ String " "%char (join_space (t' :: ts))).
  pose proof Ht as [Hne Hfree]%andb_prop.
  unfold split. rewrite split_aux_run by done. rewrite app_nil_r.
  cbn [split_aux]. change (isspace " ") with true. cbn iota.
  fold (split (join_space (t' :: ts))). rewrite IH. f_equal.
  destruct t as [|c t]; [done |].
  destruct (rev (list_ascii_of_string (String c t))) eqn:E.
  - apply (f_equal (@length ascii)) in E. rewrite length_rev in E. done.
  - by rewrite <- E, rev_chars.
Qed.

Lemma whitespace_free_string_of_list (l : list ascii) :
  Forall (λ c, isspace c = false) l →
  whitespace_free (string_of_list_ascii l) = true.
Proof.
  induction 1 as [|c l Hc _ IH]; simpl; [done |]. by rewrite Hc, IH.
Qed.

Lemma flush_word (cur : list ascii) :
  Forall (λ c, isspace c = false) cur →
  Forall (λ t, word t = true)
         match cur with
         | [] => []
         | _ => [string_of_list_ascii (rev cur)]
         end.
Proof.
  intros Hcur. destruct cur as [|d cur]; constructor; [| constructor].
  unfold word. apply andb_true_intro. split.
  - simpl. destruct (rev cur); done.
  - apply whitespace_free_string_of_list, Forall_rev. done.
Qed.

(** The tokens of [split] are words. *)
Lemma split_aux_words (cur : list ascii) (s : string) :
  Forall (λ c, isspace c = false) cur →
  Forall (λ t, word t = true) (split_aux cur s).
Proof.
  revert cur. induction s as [|c s IH]; intros cur Hcur; cbn [split_aux].
  - by apply flush_word.
  - destruct (isspace c) eqn:Hc.
    + apply Forall_app. split; [by apply flush_word | by apply IH].
    + apply IH. by constructor.
Qed.

Lemma split_words (s : string) : Forall (λ t, word t = true) (split s).
Proof. by apply split_aux_words. Qed.

Lemma split_blank (s : string) : blank s = true → split s = [].
Proof.
  unfold split. induction s as [|c s IH]; [done |].
  simpl. intros [Hc Hs]%andb_prop. rewrite Hc. by apply IH.
Qed.

(** X27.  [stem] raises (an [AttributeError]) exactly for the values that
    are truthy without being strings, the NaN of a missing tag among them;
    for [None] and for an empty or blank string it returns the empty
    string, whatever the stemmer. *)
Theorem stem_missing_tags (ps_stem : string → string) (text : value) :
  (stem ps_stem text = None ↔
     isinstance_str text = false ∧ truthy text = true) ∧
  stem ps_stem VNaN = None ∧
  (text = VNone ∨ (∃ s, text = VStr s ∧ blank s = true) →
     stem ps_stem text = Some EmptyString).
Proof.
  split_and!.
  - unfold stem, or_empty.
    destruct text as [|s|z|x|]; simpl; try (split; [done | by intros [_ ?]]).
    + destruct (str_bool s); simpl; split; try done; by intros [? _].
    + destruct (z =? 0); simpl; split; try done; by intros [_ ?].
    + destruct (Qeq_bool x 0); simpl; split; try done; by intros [_ ?].
  - done.
  - intros [-> | (s & -> & Hs)]; [done |].
    unfold stem, or_empty. simpl.
    destruct (str_bool s); simpl; [| done].
    by rewrite split_blank.
Qed.

Lemma stem_missing_tags_witness :
  stem lower (VStr "  ") = Some EmptyString.
Proof.
  destruct (stem_missing_tags lower (VStr "  ")) as (_ & _ & H).
  apply H. right. by exists "  "%string.
Defined.

Lemma word_lower (w : string) : word w = true → word (lower w) = true.
Proof.
  unfold word. intros [Hne Hfree]%andb_prop. apply andb_true_intro. split.
  - by destruct w.
  - clear Hne. induction w as [|c w IH]; [done |].
    simpl in *. apply andb_prop in Hfree as [Hc Hw].
    by rewrite JudgeMore.isspace_lower_char, Hc, IH.
Qed.

(** X28.  With a stemmer that maps words to words, the normalised text
    that [stem] returns for a string has exactly the stems of the tokens of
    that string as its tokens, in the same order, and it is in normal form:
    joining its tokens by single spaces gives it back. *)
Theorem stem_tokens (ps_stem : string → string) (text : string) :
  (∀ w, word w = true → word (ps_stem w) = true) →
  ∃ out,
    stem ps_stem (VStr text) = Some out ∧
    split out = ps_stem <$> split text ∧
    join_space (split out) = out.
Proof.
  intros Hstem.
  assert (∀ s, split (join_space (ps_stem <$> split s)) = ps_stem <$> split s)
    as Hround.
  { intros s. apply split_join_space. apply Forall_fmap.
    eapply Forall_impl; [apply split_words |]. intros w Hw. by apply Hstem. }
  unfold stem, or_empty. simpl. destruct (str_bool text) eqn:E; simpl.
  - eexists. split; [done |]. rewrite Hround. by split.
  - destruct text; [| done]. by exists EmptyString.
Qed.

Lemma stem_tokens_witness :
  ∃ out,
    stem lower (VStr "  War  DRAMA ") = Some out ∧
    split out = lower <$> split "  War  DRAMA " ∧
    join_space (split out) = out.
Proof. apply (stem_tokens lower "  War  DRAMA "), word_lower. Defined.

Example stem_example :
  stem lower (VStr "  War  DRAMA ") = Some "war drama"%string.
Proof. by vm_compute. Qed.

End LoaderFacts.

(** ** The tag set in terms of the tokens *)

Module TagSetMore.
Import Py TagNotions Metrics Notions TagFacts LoaderFacts.

Lemma lstrip_word (w : string) : word w = true → lstrip w = w.
Proof.
  destruct w as [|c w]; [done |]. unfold word. simpl.
  intros [Hc _]%andb_prop. apply negb_true_iff in Hc. by rewrite Hc.
Qed.

Lemma rstrip_whitespace_free (w : string) :
  whitespace_free w = true → rstrip w = w.
Proof.
  induction w as [|c w IH]; [done |]. simpl.
  intros [Hc Hw]%andb_prop. apply negb_true_iff in Hc.
  rewrite IH by done. destruct w; [by rewrite Hc | done].
Qed.

Lemma strip_word (w : string) : word w = true → strip w = w.
Proof.
  intros Hw. unfold strip. rewrite lstrip_word by done.
  apply rstrip_whitespace_free. by apply andb_prop in Hw as [_ ?].
Qed.

(** X29.  The tag set of a string consists of the lower-case forms of its
    white-space separated tokens: order and repetition of the tokens do not
    matter, and stripping the tokens changes nothing. *)
Theorem tag_set_tokens (tags : string) :
  ∃ a, _tag_set (VStr tags) = Some a ∧
       ∀ t, t ∈ a ↔ ∃ w, w ∈ split tags ∧ t = lower w.
Proof.
  unfold _tag_set. simpl. rewrite strip_bool.
  destruct (blank tags) eqn:E; simpl.
  - exists ∅. split; [done |]. intros t. rewrite (split_blank _ E). split.
    + by intros ?%not_elem_of_empty.
    + by intros (w & ?%elem_of_nil & _).
  - eexists. split; [done |]. intros t.
    rewrite elem_of_list_to_set, list_elem_of_fmap.
    pose proof (split_words tags) as Hwords. rewrite Forall_forall in Hwords.
    split.
    + intros (w & -> & Hw). apply list_elem_of_filter in Hw as [_ Hw].
      exists w. split; [done |]. by rewrite strip_word by by apply Hwords.
    + intros (w & Hw & ->). exists w.
      rewrite strip_word by by apply Hwords. split; [done |].
      apply list_elem_of_filter. split; [| done].
      rewrite strip_word by by apply Hwords.
      specialize (Hwords w Hw). by apply andb_prop in Hwords as [? _].
Qed.

End TagSetMore.
